(** * The [table] persistence wrapper of package [model]

    A shallow embedding of the table wrapper: the struct that persists one
    record type per Bolt bucket, with its operations [newTable], [getById],
    [getAll], [create], [update], [delete] and [truncate], together with the
    part of Bolt, [reflect], [strconv] and [encoding/json] that the wrapper
    relies on. Go's pointers are explicit here: an operation takes the value
    behind its argument and the state of the database, and returns both as
    it leaves them. *)

From Stdlib Require Import ZArith Lia DecimalString DecimalZ.
From stdpp Require Import gmap strings list fin_maps sorting.
From Ceres Require Import Ceres.

Local Open Scope string_scope.
Local Open Scope list_scope.
Local Open Scope Z_scope.

(** ** Machine integers *)

(** [uint64] addition of one, as done by [NextSequence]. *)
Definition uint64_succ (n : Z) : Z := (n + 1) mod 2 ^ 64.

(** The conversion [int64(x)] of a [uint64]: the same 64 bits read as a
    two's complement number. *)
Definition int64_of_uint64 (n : Z) : Z :=
  if decide (n < 2 ^ 63) then n else n - 2 ^ 64.

(** ** strconv *)

(** [idToKey]: [[]byte(strconv.FormatInt(id, 10))], the base-10 text of
    the identifier, with a leading minus sign for negative numbers. *)
Definition idToKey (id : Z) : string := NilZero.string_of_int (Z.to_int id).

(** ** reflect *)

Module reflect.

(** [reflect.Kind]. *)
Inductive Kind :=
| Invalid | Bool | Int | Int8 | Int16 | Int32 | Int64
| Uint | Uint8 | Uint16 | Uint32 | Uint64 | Uintptr
| Float32 | Float64 | Complex64 | Complex128
| Array | Chan | Func | Interface | Map | Ptr | Slice | String | Struct
| UnsafePointer.

#[export] Instance Kind_eq_dec : EqDecision Kind.
Proof. solve_decision. Defined.

(** A [reflect.StructField], reduced to what the table reads or relies
    on: the name, the package path [PkgPath] (empty for an exported field,
    the package of the struct for an unexported one), the value of
    [Tag.Get("db")] (empty when the key is missing) and the kind of the
    field's type. *)
Record StructField := {
  fieldName : string;
  fieldPkgPath : string;
  fieldTagDb : string;
  fieldKind : Kind
}.

#[export] Instance StructField_eq_dec : EqDecision StructField.
Proof. solve_decision. Defined.

(** [StructField.IsExported()]. *)
Definition IsExported (field : StructField) : bool :=
  bool_decide (fieldPkgPath field = "").

(** A named struct type: [Name()] and the fields in declaration order.
    Two types are the same [reflect.Type] here when they agree in both. *)
Record StructType := {
  structName : string;
  structFields : list StructField
}.

#[export] Instance StructType_eq_dec : EqDecision StructType.
Proof. solve_decision. Defined.

(** [reflect.Type]: struct types, pointers and slices are kept apart;
    of any other type only the kind is observed. *)
Inductive type :=
| TStruct (s : StructType)
| TPtr (elem : type)
| TSlice (elem : type)
| TOther (k : Kind).

#[export] Instance type_eq_dec : EqDecision type.
Proof. solve_decision. Defined.

Definition kind (t : type) : Kind :=
  match t with
  | TStruct _ => Struct
  | TPtr _ => Ptr
  | TSlice _ => Slice
  | TOther k => k
  end.

(** [Type.Elem()]; [None] stands for the panic on a type that has no
    element type. *)
Definition Elem (t : type) : option type :=
  match t with
  | TPtr e | TSlice e => Some e
  | _ => None
  end.

(** [Type.Name()]. *)
Definition Name (t : type) : string :=
  match t with
  | TStruct s => structName s
  | _ => ""
  end.

(** The value of one struct field. *)
Inductive FieldVal :=
| VInt64 (n : Z)
| VString (s : string)
| VBool (b : bool)
| VOpaque (k : Kind).

#[export] Instance FieldVal_eq_dec : EqDecision FieldVal.
Proof. solve_decision. Defined.

(** The values that callers hand to the table as [interface{}]. *)
Inductive Value :=
| VStruct (t : StructType) (fields : list FieldVal)
    (* T *)
| VPtr (t : StructType) (fields : list FieldVal)
    (* *T, pointing to a struct *)
| VPtrPtr (t : StructType) (target : option (list FieldVal))
    (* **T; the inner pointer is nil or points to a struct *)
| VPtrSlice (t : StructType) (elems : list (list FieldVal))
    (* *[]T *)
| VOther (t : type).
    (* any other value (a nil pointer among them): only its type is used *)

Definition TypeOf (v : Value) : type :=
  match v with
  | VStruct t _ => TStruct t
  | VPtr t _ => TPtr (TStruct t)
  | VPtrPtr t _ => TPtr (TPtr (TStruct t))
  | VPtrSlice t _ => TPtr (TSlice (TStruct t))
  | VOther t => t
  end.

(** [reflect.ValueOf(v).Type()]; [None] stands for the panic on the zero
    [reflect.Value], which [ValueOf] returns for a nil interface: the one
    value whose kind is [Invalid]. *)
Definition ValueType (v : Value) : option type :=
  if decide (kind (TypeOf v) = Invalid) then None else Some (TypeOf v).

(** [reflect.Zero] of a field of the given kind. *)
Definition zeroField (k : Kind) : FieldVal :=
  match k with
  | Int64 => VInt64 0
  | String => VString ""
  | Bool => VBool false
  | _ => VOpaque k
  end.

(** The zero value of a struct type, as [reflect.New] allocates it. *)
Definition zeroStruct (t : StructType) : list FieldVal :=
  zeroField ∘ fieldKind <$> structFields t.

(** [Value.Field(i).Int()]; [None] stands for the panic on a missing or
    non-integer field. *)
Definition FieldInt (fields : list FieldVal) (i : nat) : option Z :=
  match fields !! i with
  | Some (VInt64 n) => Some n
  | _ => None
  end.

(** [Value.Field(i).CanSet()] for a struct that was reached through a
    pointer, which makes it addressable: the field can be set when it is
    exported. *)
Definition CanSet (t : StructType) (i : nat) : bool :=
  match structFields t !! i with
  | Some field => IsExported field
  | None => false
  end.

(** [Value.Field(i).SetInt(x)] on such a struct; [None] stands for the
    panic on a field that cannot be set. *)
Definition FieldSetInt (t : StructType) (fields : list FieldVal) (i : nat) (x : Z)
    : option (list FieldVal) :=
  if CanSet t i then Some (<[i := VInt64 x]> fields) else None.

End reflect.
Import reflect.

(** ** Errors *)

(** One constructor per error the table can return: the [fmt.Errorf]
    sites of the wrapper, the errors of the store and of the codec, and
    [Panic] for a run-time panic of [reflect]. *)
Inductive error :=
| ErrRecordTypeNotStruct (k : Kind)
    (* record type must be a struct; got k *)
| ErrIdFieldNotInt64 (name : string) (k : Kind)
    (* field in struct tagged with 'id' must be an int64; got k *)
| ErrNoIdField (name : string)
    (* struct has no field tagged as the id *)
| ErrInputKinds (expected actual : list Kind)
    (* input must be a <expected chain>; got a <actual chain> *)
| ErrRecordTypeMismatch (given : type) (name : string)
    (* given record of type does not match expected type for table *)
| ErrCreateNonZeroId (name : string) (id : Z)
    (* can't create with non-zero ID *)
| ErrAlreadyExists (name : string) (id : Z) (oldRecord : string)
    (* with ID already exists *)
| ErrUpdateZeroId (name : string)
    (* can't update with zero ID *)
| ErrUpdateNonExistent (name : string) (id : Z)
    (* can't update non-existent with ID *)
| ErrDeleteNonExistent (name : string) (id : Z)
    (* can't delete non-existent with ID *)
| ErrUnknownTable (name : string)
    (* unknown table *)
| ErrBucketExists
| ErrBucketNotFound
| ErrBucketNameRequired
| ErrMarshal
| ErrUnmarshal
| Panic.

#[export] Instance error_eq_dec : EqDecision error.
Proof. solve_decision. Defined.

(** ** The store *)

Module bbolt.

(** Modelled from the spec: the Store Adapter (the Bolt engine, which is
    an external dependency). A namespace is a bucket: its entries by
    byte key and its sequence counter, a [uint64] that starts at 0. *)
Record Bucket := {
  entries : gmap string string;
  sequence : Z
}.

(** Modelled from the spec: a namespace as [CreateBucket] makes it. *)
Definition emptyBucket : Bucket := {| entries := ∅; sequence := 0 |}.

(** The state of the database: the buckets by name. *)
Abbreviation DB := (gmap string Bucket).

(** Code that runs inside a transaction. It reads and writes the
    transaction's view of the database and the caller's memory [H] (what
    the closure captured); an error stops it, keeping both as they
    are at that point. *)
Definition Tx (H A : Type) : Type := DB → H → (error + A) * DB * H.

Definition ret {H A} (a : A) : Tx H A := λ db h, (inr a, db, h).

Definition fail {H A} (e : error) : Tx H A := λ db h, (inl e, db, h).

Definition bind {H A B} (m : Tx H A) (f : A → Tx H B) : Tx H B :=
  λ db h,
    match m db h with
    | (inr a, db', h') => f a db' h'
    | (inl e, db', h') => (inl e, db', h')
    end.

(** Reading and writing the caller's memory. *)
Definition load {H} : Tx H H := λ db h, (inr h, db, h).

Definition store {H} (h : H) : Tx H unit := λ db _, (inr tt, db, h).

(** Modelled from the spec: [tx.Bucket(name)], the handle of the bucket
    or nil. The handle is the bucket's name. *)
Definition TxBucket {H} (name : string) : Tx H (option string) :=
  λ db h, (inr (match db !! name with Some _ => Some name | None => None end), db, h).

(** Modelled from the spec: [createNamespaceIfAbsent]. Bolt refuses an
    empty name, which is what the name of a struct type without a name
    is. *)
Definition CreateBucketIfNotExists {H} (name : string) : Tx H unit :=
  λ db h,
    if decide (name = "") then (inl ErrBucketNameRequired, db, h)
    else
      match db !! name with
      | Some _ => (inr tt, db, h)
      | None => (inr tt, <[name := emptyBucket]> db, h)
      end.

(** Modelled from the spec: the second half of [dropAndRecreateNamespace],
    [tx.CreateBucket]; creating a bucket that exists is an error. The
    table calls it with the key of a bucket that it has just found and
    deleted, so the case of an empty name is left out. *)
Definition CreateBucket {H} (name : string) : Tx H unit :=
  λ db h,
    match db !! name with
    | Some _ => (inl ErrBucketExists, db, h)
    | None => (inr tt, <[name := emptyBucket]> db, h)
    end.

(** Modelled from the spec: the first half of [dropAndRecreateNamespace],
    [tx.DeleteBucket]; deleting a bucket that does not exist is an error.
    The entries and the counter of the bucket go with it. *)
Definition DeleteBucket {H} (name : string) : Tx H unit :=
  λ db h,
    match db !! name with
    | Some _ => (inr tt, base.delete name db, h)
    | None => (inl ErrBucketNotFound, db, h)
    end.

(** A write to the bucket behind a handle; a handle whose bucket is gone
    does not occur in the table's code. *)
Definition onBucket {H A} (bucket : string) (f : Bucket → A * Bucket) : Tx H A :=
  λ db h,
    match db !! bucket with
    | Some b => let '(a, b') := f b in (inr a, <[bucket := b']> db, h)
    | None => (inl Panic, db, h)
    end.

(** Modelled from the spec: [get(name, key) → bytes|absent]. *)
Definition Get {H} (bucket key : string) : Tx H (option string) :=
  λ db h,
    match db !! bucket with
    | Some b => (inr (entries b !! key), db, h)
    | None => (inl Panic, db, h)
    end.

(** Modelled from the spec: [put(name, key, bytes)]. The limits of the
    engine on the sizes of keys and values are left out. *)
Definition Put {H} (bucket key value : string) : Tx H unit :=
  onBucket bucket
    (λ b, (tt, {| entries := <[key := value]> (entries b); sequence := sequence b |})).

(** Modelled from the spec: [delete(name, key)]. *)
Definition Delete {H} (bucket key : string) : Tx H unit :=
  onBucket bucket
    (λ b, (tt, {| entries := base.delete key (entries b); sequence := sequence b |})).

(** Modelled from the spec: [nextSequence(name) → uint64], which advances
    the bucket's counter and returns the new value. *)
Definition NextSequence {H} (bucket : string) : Tx H Z :=
  onBucket bucket
    (λ b, let n := uint64_succ (sequence b) in
          (n, {| entries := entries b; sequence := n |})).

(** Byte-wise lexicographic order on keys. *)
Definition keyLe (x y : string * string) : Prop := String.leb x.1 y.1 = true.

#[export] Instance keyLe_dec : RelDecision keyLe.
Proof. intros x y. unfold keyLe. apply _. Defined.

(** Modelled from the spec: [iterateOrdered(name)], the entries in
    ascending byte order of their keys. *)
Definition ordered (b : Bucket) : list (string * string) :=
  merge_sort keyLe (map_to_list (entries b)).

(** Modelled from the spec: [bucket.ForEach(fn)] hands every entry of
    [iterateOrdered] to [fn], up to the first error of [fn]. *)
Fixpoint forEach {H} (fn : string → string → Tx H unit) (kvs : list (string * string))
    : Tx H unit :=
  match kvs with
  | [] => ret tt
  | (key, value) :: rest => bind (fn key value) (λ _, forEach fn rest)
  end.

Definition ForEach {H} (bucket : string) (fn : string → string → Tx H unit) : Tx H unit :=
  λ db h,
    match db !! bucket with
    | Some b => forEach fn (ordered b) db h
    | None => (inl Panic, db, h)
    end.

(** Modelled from the spec: a read-write transaction. It commits when
    the function returns nil and rolls back when it returns an error: the
    database is then as it was. What the function wrote to the caller's
    memory stays. *)
Definition Update {H} (fn : Tx H unit) (db : DB) (h : H) : option error * H * DB :=
  match fn db h with
  | (inr _, db', h') => (None, h', db')
  | (inl e, _, h') => (Some e, h', db)
  end.

(** Modelled from the spec: a read-only transaction. *)
Definition View {H} (fn : Tx H unit) (db : DB) (h : H) : option error * H * DB :=
  match fn db h with
  | (inr _, _, h') => (None, h', db)
  | (inl e, _, h') => (Some e, h', db)
  end.

End bbolt.
Import bbolt.

Notation "'let*' x ':=' m 'in' k" := (bbolt.bind m (λ x, k))
  (at level 10, x name, m at level 100, k at level 200).
Notation "m ;; k" := (bbolt.bind m (λ _, k))
  (at level 100, k at level 200, right associativity).

(** ** The table *)

(** Encapsulates all persistence operations for one struct type. The
    handle of the database is not part of the record: the state of the
    database is passed to every operation and returned by it. *)
Record table := {
  recordType : type;
  name : string;
  bucketKey : string;
  idFieldIndex : option nat
}.

(** The loop of [newTable] over the fields, from index [i] on: the first
    field tagged [db:"id"] decides. *)
Fixpoint scanIdField (tableName : string) (fields : list StructField) (i : nat)
    : error + option nat :=
  match fields with
  | [] => inr None
  | field :: rest =>
      if decide (fieldTagDb field = "id") then
        if decide (fieldKind field ≠ Int64) then
          inl (ErrIdFieldNotInt64 tableName (fieldKind field))
        else inr (Some i)
      else scanIdField tableName rest (S i)
  end.

(** Registers a new table for a struct, given its zero value. *)
Definition newTable (recordType : Value) (db : DB) : (error + table) * DB :=
  let recordTypeValue := TypeOf recordType in
  if decide (kind recordTypeValue ≠ Struct) then
    (inl (ErrRecordTypeNotStruct (kind recordTypeValue)), db)
  else
    match recordTypeValue with
    | TStruct st =>
        let name := Name recordTypeValue in
        match scanIdField name (structFields st) 0 with
        | inl e => (inl e, db)
        | inr None => (inl (ErrNoIdField name), db)
        | inr (Some i) =>
            let table :=
              {| recordType := recordTypeValue; name := name;
                 bucketKey := name; idFieldIndex := Some i |} in
            match Update (CreateBucketIfNotExists (bucketKey table)) db tt with
            | (Some e, _, db') => (inl e, db')
            | (None, _, db') => (inr table, db')
            end
        end
    | _ => (inl Panic, db)
    end.

(** Obtains the Bolt bucket belonging to the table. *)
Definition getBucket {H} (t : table) : Tx H string :=
  let* bucket := TxBucket (bucketKey t) in
  match bucket with
  | None => fail (ErrUnknownTable (name t))
  | Some bucket => ret bucket
  end.

(** The loop of [validateType] over the expected kinds; [expected] and
    [actual] are the chains of kinds seen so far. It returns the base type
    that is reached. *)
Fixpoint checkKinds (recordType : type) (kinds expected actual : list Kind)
    : error + type :=
  match kinds with
  | [] => inr recordType
  | kind :: rest =>
      let expected := expected ++ [kind] in
      let actual := actual ++ [reflect.kind recordType] in
      if decide (reflect.kind recordType ≠ kind) then
        inl (ErrInputKinds expected actual)
      else
        match rest with
        | [] => inr recordType
        | _ :: _ =>
            match Elem recordType with
            | Some elem => checkKinds elem rest expected actual
            | None => inl Panic
            end
        end
  end.

(** Validates that the given record is of the expected derived type, that
    the base type is the one stored in the table, and that the table is
    configured correctly. *)
Definition validateType (t : table) (record : Value) (kinds : list Kind) : option error :=
  match ValueType record with
  | None => Some Panic
  | Some given =>
      match checkKinds given kinds [] [] with
      | inl e => Some e
      | inr baseType =>
          if decide (baseType ≠ recordType t) then
            Some (ErrRecordTypeMismatch baseType (name t))
          else if decide (idFieldIndex t = None) then
            Some (ErrNoIdField (name t))
          else None
      end
  end.

Section Codec.

(** [encoding/json], an external dependency: [Marshal] of a pointer to a
    struct, and [Unmarshal] into a struct that holds the given fields.
    [None] is the codec's error. *)
Variable Marshal : StructType → list FieldVal → option string.
Variable Unmarshal : StructType → string → list FieldVal → option (list FieldVal).

(** Populates the given double pointer to a record with the data from
    the record with the given ID, or nil if it doesn't exist.
    [Unmarshal] fills the struct the inner pointer points to, which it
    allocates when the pointer is nil. What a decoding that fails has
    written to the record by then depends on the codec and is not
    modelled: the record is returned as it was given. *)
Definition getById (t : table) (id : Z) (record : Value) (db : DB)
    : option error * Value * DB :=
  match validateType t record [Ptr; Ptr; Struct] with
  | Some e => (Some e, record, db)
  | None =>
      match record with
      | VPtrPtr ty target =>
          let '(err, target', db') :=
            View (
              let* bucket := getBucket t in
              let* recordJson := Get bucket (idToKey id) in
              match recordJson with
              | Some recordJson =>
                  let* target := load in
                  match Unmarshal ty recordJson (default (zeroStruct ty) target) with
                  | Some decoded => store (Some decoded)
                  | None => fail ErrUnmarshal
                  end
              | None =>
                  (* If the record does not exist, set the record pointer to nil. *)
                  store None
              end) db target in
          (err, VPtrPtr ty target', db')
      | _ =>
          (* A nil pointer: [Unmarshal] refuses it, and setting it panics. *)
          let '(err, _, db') :=
            View (
              let* bucket := getBucket t in
              let* recordJson := Get bucket (idToKey id) in
              match recordJson with
              | Some _ => fail ErrUnmarshal
              | None => fail Panic
              end) db tt in
          (err, record, db')
      end
  end.

(** The function that [getAll] hands to [ForEach]: it decodes the entry
    into a new record and appends it to the slice. *)
Definition appendDecoded (ty : StructType) (key value : string)
    : Tx (list (list FieldVal)) unit :=
  match Unmarshal ty value (zeroStruct ty) with
  | None => fail ErrUnmarshal
  | Some record =>
      let* slice := load in
      store (slice ++ [record])
  end.

(** Populates the given slice passed by pointer with the data from every
    record in the table, ordered by ID (so the source; the order is that
    of [ForEach], the order of the keys). *)
Definition getAll (t : table) (recordSlice : Value) (db : DB)
    : option error * Value * DB :=
  match validateType t recordSlice [Ptr; Slice; Struct] with
  | Some e => (Some e, recordSlice, db)
  | None =>
      match recordSlice with
      | VPtrSlice ty elems =>
          let '(err, elems', db') :=
            View (
              let* bucket := getBucket t in
              store [] ;;
              ForEach bucket (appendDecoded ty)) db elems in
          (err, VPtrSlice ty elems', db')
      | _ =>
          (* A nil pointer: setting the slice it points to panics. *)
          let '(err, _, db') := View (getBucket t ;; fail Panic) db tt in
          (err, recordSlice, db')
      end
  end.

(** Persists the given record as a new row in the table. A panic inside
    the transaction makes Bolt roll it back, like an error does. *)
Definition create (t : table) (record : Value) (db : DB)
    : option error * Value * DB :=
  match validateType t record [Ptr; Struct] with
  | Some e => (Some e, record, db)
  | None =>
      match record, idFieldIndex t with
      | VPtr ty value, Some idFieldIndex =>
          match FieldInt value idFieldIndex with
          | None => (Some Panic, record, db)
          | Some id =>
              (* The ID must be zero since the record is given a generated one. *)
              if decide (id ≠ 0) then
                (Some (ErrCreateNonZeroId (name t) id), record, db)
              else
                let '(err, value', db') :=
                  Update (
                    let* bucket := getBucket t in
                    (* Generate a new ID for the record. *)
                    let* newSequence := NextSequence bucket in
                    let id := int64_of_uint64 newSequence in
                    let* value := load in
                    match FieldSetInt ty value idFieldIndex id with
                    | None => fail Panic
                    | Some value => store value
                    end ;;
                    (* No record having the same ID may exist in the table. *)
                    let key := idToKey id in
                    let* oldRecord := Get bucket key in
                    match oldRecord with
                    | Some oldRecord => fail (ErrAlreadyExists (name t) id oldRecord)
                    | None =>
                        let* value := load in
                        match Marshal ty value with
                        | None => fail ErrMarshal
                        | Some recordJson => Put bucket key recordJson
                        end
                    end) db value in
                (err, VPtr ty value', db')
          end
      | _, _ => (Some Panic, record, db)
      end
  end.

(** Persists the given record as an update to the existing row in the
    table. Returns an error if the record does not already exist. *)
Definition update (t : table) (record : Value) (db : DB)
    : option error * Value * DB :=
  match validateType t record [Ptr; Struct] with
  | Some e => (Some e, record, db)
  | None =>
      match record, idFieldIndex t with
      | VPtr ty value, Some idFieldIndex =>
          match FieldInt value idFieldIndex with
          | None => (Some Panic, record, db)
          | Some id =>
              if decide (id = 0) then
                (Some (ErrUpdateZeroId (name t)), record, db)
              else
                let '(err, value', db') :=
                  Update (
                    let* bucket := getBucket t in
                    (* A record having the same ID must exist in the table. *)
                    let key := idToKey id in
                    let* oldRecord := Get bucket key in
                    match oldRecord with
                    | None => fail (ErrUpdateNonExistent (name t) id)
                    | Some _ =>
                        let* value := load in
                        match Marshal ty value with
                        | None => fail ErrMarshal
                        | Some recordJson => Put bucket key recordJson
                        end
                    end) db value in
                (err, VPtr ty value', db')
          end
      | _, _ => (Some Panic, record, db)
      end
  end.

(** Deletes the record having the given ID from the table. Returns an
    error if the record does not exist. *)
Definition delete (t : table) (id : Z) (db : DB) : option error * DB :=
  let '(err, _, db') :=
    Update (
      let* bucket := getBucket t in
      let key := idToKey id in
      let* oldRecord := Get bucket key in
      match oldRecord with
      | None => fail (ErrDeleteNonExistent (name t) id)
      | Some _ => Delete bucket key
      end) db tt in
  (err, db').

(** Deletes all records from the table, by deleting the whole bucket and
    creating it again. *)
Definition truncate (t : table) (db : DB) : option error * DB :=
  let '(err, _, db') :=
    Update (
      getBucket t ;;
      DeleteBucket (bucketKey t) ;;
      CreateBucket (bucketKey t)) db tt in
  (err, db').

(** *** Histories of calls *)

(** One call on the table by a client. *)
Inductive Op :=
| OpGetById (id : Z) (record : Value)
| OpGetAll (recordSlice : Value)
| OpCreate (record : Value)
| OpUpdate (record : Value)
| OpDelete (id : Z)
| OpTruncate.

(** The identifier that a successful [create] has written to its record. *)
Definition assignedId (t : table) (err : option error) (record : Value) : list Z :=
  match err, record, idFieldIndex t with
  | None, VPtr _ value, Some i => option_list (FieldInt value i)
  | _, _, _ => []
  end.

(** Runs one call: the database after it, and the identifier it handed
    out, if it is a [create] that succeeded. *)
Definition step (t : table) (op : Op) (db : DB) : DB * list Z :=
  match op with
  | OpGetById id record => ((getById t id record db).2, [])
  | OpGetAll recordSlice => ((getAll t recordSlice db).2, [])
  | OpCreate record =>
      let '(err, record', db') := create t record db in
      (db', assignedId t err record')
  | OpUpdate record => ((update t record db).2, [])
  | OpDelete id => ((delete t id db).2, [])
  | OpTruncate => ((truncate t db).2, [])
  end.

(** Runs a history of calls: the database after it, and the identifiers
    handed out, oldest first. *)
Fixpoint run (t : table) (ops : list Op) (db : DB) : DB * list Z :=
  match ops with
  | [] => (db, [])
  | op :: rest =>
      let '(db1, ids1) := step t op db in
      let '(db2, ids2) := run t rest db1 in
      (db2, ids1 ++ ids2)
  end.

Definition isTruncate (op : Op) : bool :=
  match op with OpTruncate => true | _ => false end.

End Codec.


(** ** A codec to run the table with *)

(** A stand-in for [encoding/json] that writes a struct as an
    S-expression. Like [encoding/json] it refuses values it has no encoding
    for. *)
Module sexp.

#[export] Instance Serialize_FieldVal : Serialize FieldVal :=
  λ v, match v with
       | VInt64 n => [Atom "int64"; to_sexp n]
       | VString s => [Atom "string"; to_sexp s]
       | VBool b => [Atom "bool"; to_sexp b]
       | VOpaque _ => Atom "opaque"
       end%sexp.

#[export] Instance Deserialize_FieldVal : Deserialize FieldVal :=
  Deser.match_con "FieldVal" []
    [("int64", Deser.con1_ VInt64);
     ("string", Deser.con1_ VString);
     ("bool", Deser.con1_ VBool)].

Definition supported (v : FieldVal) : bool :=
  match v with VOpaque _ => false | _ => true end.

Definition Marshal (ty : StructType) (value : list FieldVal) : option string :=
  if forallb supported value then Some (to_string value) else None.

Definition Unmarshal (ty : StructType) (data : string) (target : list FieldVal)
    : option (list FieldVal) :=
  match from_string data with
  | inr value => Some value
  | inl _ => None
  end.

End sexp.

(** ** A table to run *)

Module example.

(** A record type with the fields {id: identifier, name: text}. *)
Definition Row : StructType :=
  {| structName := "Row";
     structFields :=
       [ {| fieldName := "Id"; fieldPkgPath := ""; fieldTagDb := "id"; fieldKind := Int64 |};
         {| fieldName := "Name"; fieldPkgPath := ""; fieldTagDb := ""; fieldKind := String |} ] |}.

Definition row (id : Z) (name : string) : list FieldVal := [VInt64 id; VString name].

(** The table that [newTable] returns for [Row], and the database it
    leaves when it starts from an empty one. *)
Definition rows : table :=
  {| recordType := TStruct Row; name := "Row"; bucketKey := "Row";
     idFieldIndex := Some 0%nat |}.

Definition db0 : DB := {[ "Row" := emptyBucket ]}.

(** A record type that the codec has no encoding for: it holds a channel. *)
Definition Feed : StructType :=
  {| structName := "Feed";
     structFields :=
       [ {| fieldName := "Id"; fieldPkgPath := ""; fieldTagDb := "id"; fieldKind := Int64 |};
         {| fieldName := "Updates"; fieldPkgPath := ""; fieldTagDb := ""; fieldKind := Chan |} ] |}.

Definition feeds : table :=
  {| recordType := TStruct Feed; name := "Feed"; bucketKey := "Feed";
     idFieldIndex := Some 0%nat |}.

Definition feedDb : DB := {[ "Feed" := emptyBucket ]}.

(** A record type whose identifier field is not exported: the field [id]
    of a struct declared in package [model]. *)
Definition Draft : StructType :=
  {| structName := "Draft";
     structFields :=
       [ {| fieldName := "id"; fieldPkgPath := "model"; fieldTagDb := "id"; fieldKind := Int64 |};
         {| fieldName := "Name"; fieldPkgPath := ""; fieldTagDb := ""; fieldKind := String |} ] |}.

Definition drafts : table :=
  {| recordType := TStruct Draft; name := "Draft"; bucketKey := "Draft";
     idFieldIndex := Some 0%nat |}.

Definition draftDb : DB := {[ "Draft" := emptyBucket ]}.

Definition create := create sexp.Marshal rows.
Definition run := run sexp.Marshal sexp.Unmarshal rows.
Definition getAll := getAll sexp.Unmarshal rows.
Definition getById := getById sexp.Unmarshal rows.

End example.

(** * The arena's messages, package [field] *)

(** The notifiers of the arena push messages to the websocket clients;
    what follows are the methods that produce the messages. The arena and
    the packages [game], [model], [bracket], [network] and [plc] are not
    part of these sources: records are reduced to the fields that are
    read here, and every other type, field and method that the code uses is
    a member of the class [Env]. *)

(** Go's [int]: 64 bits, two's complement. *)
Definition int_wrap (z : Z) : Z := (z + 2 ^ 63) mod 2 ^ 64 - 2 ^ 63.

Definition int_add (a b : Z) : Z := int_wrap (a + b).

Module game.

(** [game.Foul], reduced to the field that is read here. *)
Record Foul := { RuleId : Z }.

(** [game.MatchStatus]: the three values that the code names, and any
    other one. *)
Inductive MatchStatus := RedWonMatch | BlueWonMatch | TieMatch | OtherMatchStatus.

End game.

Module model.

(** [model.MatchType]: the value that the code names, and any other one. *)
Inductive MatchType := Playoff | OtherMatchType.

(** [model.Match], reduced to the fields that are read here. *)
Record Match := {
  Id : Z;
  Type' : MatchType;
  Status : game.MatchStatus;
  PlayoffRound : Z;
  PlayoffGroup : Z;
  Red1 : Z;
  Red2 : Z;
  Red3 : Z;
  Blue1 : Z;
  Blue2 : Z;
  Blue3 : Z
}.

End model.

Module field.

(** What the message methods read of the arena and of the other
    packages. *)
Class Env := {
  Arena : Type;
  Rule : Type;                      (* game.Rule *)
  ScoreSummary : Type;              (* game.ScoreSummary *)
  Ranking : Type;                   (* game.Ranking *)
  Matchup : Type;                   (* bracket.Matchup *)
  Team : Type;                      (* model.Team *)
  AllianceStation : Type;
  TeamWifiStatus : Type;            (* network.TeamWifiStatus *)
  MatchState : Type;
  (* game.GetRuleById: the rule, or nil *)
  GetRuleById : Z → option Rule;
  BonusRankingPoints : ScoreSummary → Z;
  TeamId : Ranking → Z;
  TeamNumber : Team → Z;            (* Team.Id *)
  StationTeam : AllianceStation → option Team;   (* AllianceStation.Team, or nil *)
  (* matchup.StatusText() on a pointer that may be nil: the leader and the
     status, or a panic *)
  StatusText : option Matchup → option (string * string);
  (* fields of the arena; the pointers among them are taken to be set *)
  CurrentMatch : Arena → model.Match;
  SavedMatch : Arena → model.Match;
  SavedRankings : Arena → list Ranking;
  AllianceStations : Arena → gmap string AllianceStation;
  ArenaMatchState : Arena → MatchState;
  Ap2TeamChannel : Arena → Z;       (* arena.EventSettings.Ap2TeamChannel *)
  accessPointStatuses : Arena → list TeamWifiStatus;    (* arena.accessPoint.TeamWifiStatuses *)
  accessPoint2Statuses : Arena → list TeamWifiStatus;   (* arena.accessPoint2.TeamWifiStatuses *)
  (* arena.SavedMatchResult and its methods *)
  SavedRedScoreSummary : Arena → ScoreSummary;
  SavedBlueScoreSummary : Arena → ScoreSummary;
  SavedRedFouls : Arena → list game.Foul;
  SavedBlueFouls : Arena → list game.Foul;
  SavedRedCards : Arena → gmap string string;
  SavedBlueCards : Arena → gmap string string;
  (* methods of the arena, the bracket, the database and the PLC; the
     errors that the code drops are left out *)
  checkCanStartMatchIsNil : Arena → bool;
  PlcIsHealthy : Arena → bool;
  PlcGetFieldEstop : Arena → bool;
  PlcGetArmorBlockStatuses : Arena → gmap string bool;
  GetMatchup : Arena → Z → Z → option Matchup;
  GetOffFieldTeamIds : Arena → model.Match → list Z * list Z;
  GetRankingForTeam : Arena → Z → option Ranking;
  GetTeamById : Arena → Z → option Team
}.

(** Produce a map of rules that were violated by either alliance so that
    they are available to the announcer. *)
Definition getRulesViolated `{Env} (redFouls blueFouls : list game.Foul)
    : gmap Z (option Rule) :=
  let rules : gmap Z (option Rule) := ∅ in
  let rules :=
    foldl (λ rules foul, <[game.RuleId foul := GetRuleById (game.RuleId foul)]> rules)
      rules redFouls in
  foldl (λ rules foul, <[game.RuleId foul := GetRuleById (game.RuleId foul)]> rules)
    rules blueFouls.

Module ArenaStatus.

Record Message `{Env} := {
  MatchId : Z;
  AllianceStations : gmap string AllianceStation;
  TeamWifiStatuses : gmap string TeamWifiStatus;
  MatchState : field.MatchState;
  CanStartMatch : bool;
  PlcIsHealthy : bool;
  FieldEstop : bool;
  PlcArmorBlockStatuses : gmap string bool
}.

End ArenaStatus.

(** The loop of [generateArenaStatusMessage] over the stations, from index
    [i] on: it converts the arrays of team wifi statuses of the access
    points to a map by station. [None] stands for the panic of an index out
    of range. *)
Fixpoint teamWifiStatusesFrom `{Env} (arena : Arena) (i : nat) (stations : list string)
    (teamWifiStatuses : gmap string TeamWifiStatus)
    : option (gmap string TeamWifiStatus) :=
  match stations with
  | [] => Some teamWifiStatuses
  | station :: rest =>
      let source :=
        if decide (Ap2TeamChannel arena = 0 ∨ (i < 3)%nat) then accessPointStatuses arena
        else accessPoint2Statuses arena in
      match source !! i with
      | Some status =>
          teamWifiStatusesFrom arena (S i) rest (<[station := status]> teamWifiStatuses)
      | None => None
      end
  end.

Definition generateArenaStatusMessage `{Env} (arena : Arena) : option ArenaStatus.Message :=
  match teamWifiStatusesFrom arena 0 ["R1"; "R2"; "R3"; "B1"; "B2"; "B3"] ∅ with
  | None => None
  | Some teamWifiStatuses =>
      Some {| ArenaStatus.MatchId := model.Id (CurrentMatch arena);
              ArenaStatus.AllianceStations := AllianceStations arena;
              ArenaStatus.TeamWifiStatuses := teamWifiStatuses;
              ArenaStatus.MatchState := ArenaMatchState arena;
              ArenaStatus.CanStartMatch := checkCanStartMatchIsNil arena;
              ArenaStatus.PlcIsHealthy := PlcIsHealthy arena;
              ArenaStatus.FieldEstop := PlcGetFieldEstop arena;
              ArenaStatus.PlcArmorBlockStatuses := PlcGetArmorBlockStatuses arena |}
  end.

Module MatchLoad.

Record Message `{Env} := {
  Match : model.Match;
  Teams : gmap string (option Team);
  Rankings : gmap string (option Ranking);
  Matchup : option field.Matchup;
  RedOffFieldTeams : list (option Team);
  BlueOffFieldTeams : list (option Team)
}.

End MatchLoad.

(** The two loops over the off-field team IDs: each appends the team that
    the database returns for the ID, which is nil for an unknown one. *)
Definition offFieldTeams `{Env} (arena : Arena) (teamIds : list Z) : list (option Team) :=
  foldl (λ teams teamId, teams ++ [GetTeamById arena teamId]) [] teamIds.

Definition GenerateMatchLoadMessage `{Env} (arena : Arena) : MatchLoad.Message :=
  let teams : gmap string (option Team) :=
    map_fold (λ station allianceStation teams,
                <[station := StationTeam allianceStation]> teams)
      ∅ (AllianceStations arena) in
  let rankings : gmap string (option Ranking) :=
    map_fold (λ _ allianceStation rankings,
                match StationTeam allianceStation with
                | Some team =>
                    <[idToKey (TeamNumber team) :=
                        GetRankingForTeam arena (TeamNumber team)]> rankings
                | None => rankings
                end)
      ∅ (AllianceStations arena) in
  let '(matchup, redOffFieldTeams, blueOffFieldTeams) :=
    match model.Type' (CurrentMatch arena) with
    | model.Playoff =>
        let matchup :=
          GetMatchup arena (model.PlayoffRound (CurrentMatch arena))
            (model.PlayoffGroup (CurrentMatch arena)) in
        let '(redOffFieldTeamIds, blueOffFieldTeamIds) :=
          GetOffFieldTeamIds arena (CurrentMatch arena) in
        (matchup, offFieldTeams arena redOffFieldTeamIds,
         offFieldTeams arena blueOffFieldTeamIds)
    | model.OtherMatchType => (None, [], [])
    end in
  {| MatchLoad.Match := CurrentMatch arena;
     MatchLoad.Teams := teams;
     MatchLoad.Rankings := rankings;
     MatchLoad.Matchup := matchup;
     MatchLoad.RedOffFieldTeams := redOffFieldTeams;
     MatchLoad.BlueOffFieldTeams := blueOffFieldTeams |}.

Module ScorePosted.

(** A pointer [&arena.SavedRankings[index]] is kept as the index. *)
Record Message `{Env} := {
  Match : model.Match;
  RedScoreSummary : ScoreSummary;
  BlueScoreSummary : ScoreSummary;
  RedRankingPoints : Z;
  BlueRankingPoints : Z;
  RedFouls : list game.Foul;
  BlueFouls : list game.Foul;
  RulesViolated : gmap Z (option Rule);
  RedCards : gmap string string;
  BlueCards : gmap string string;
  RedRankings : gmap Z (option nat);
  BlueRankings : gmap Z (option nat);
  RedOffFieldTeamIds : list Z;
  BlueOffFieldTeamIds : list Z;
  SeriesStatus : string;
  SeriesLeader : string
}.

End ScorePosted.

(** One step of the loop over the saved rankings, for one alliance: a
    team that is a key of the map gets the pointer to its ranking. *)
Definition setRanking `{Env} (rankings : gmap Z (option nat)) (index : nat)
    (ranking : Ranking) : gmap Z (option nat) :=
  match rankings !! TeamId ranking with
  | Some _ => <[TeamId ranking := Some index]> rankings
  | None => rankings
  end.

(** The loop of [GenerateScorePostedMessage] over the saved rankings, from
    index [index] on. *)
Fixpoint savedRankingsFrom `{Env} (index : nat) (savedRankings : list Ranking)
    (redRankings blueRankings : gmap Z (option nat))
    : gmap Z (option nat) * gmap Z (option nat) :=
  match savedRankings with
  | [] => (redRankings, blueRankings)
  | ranking :: rest =>
      savedRankingsFrom (S index) rest
        (setRanking redRankings index ranking) (setRanking blueRankings index ranking)
  end.

(** [None] stands for the panic of [StatusText]. *)
Definition GenerateScorePostedMessage `{Env} (arena : Arena) : option ScorePosted.Message :=
  let redScoreSummary := SavedRedScoreSummary arena in
  let blueScoreSummary := SavedBlueScoreSummary arena in
  let redRankingPoints := BonusRankingPoints redScoreSummary in
  let blueRankingPoints := BonusRankingPoints blueScoreSummary in
  let '(redRankingPoints, blueRankingPoints) :=
    match model.Status (SavedMatch arena) with
    | game.RedWonMatch => (int_add redRankingPoints 2, blueRankingPoints)
    | game.BlueWonMatch => (redRankingPoints, int_add blueRankingPoints 2)
    | game.TieMatch => (int_add redRankingPoints 1, int_add blueRankingPoints 1)
    | game.OtherMatchStatus => (redRankingPoints, blueRankingPoints)
    end in
  (* For playoff matches, summarize the state of the series. *)
  let series : option (string * string * list Z * list Z) :=
    match model.Type' (SavedMatch arena) with
    | model.Playoff =>
        let matchup :=
          GetMatchup arena (model.PlayoffRound (SavedMatch arena))
            (model.PlayoffGroup (SavedMatch arena)) in
        match StatusText matchup with
        | Some (seriesLeader, seriesStatus) =>
            let '(redOffFieldTeamIds, blueOffFieldTeamIds) :=
              GetOffFieldTeamIds arena (SavedMatch arena) in
            Some (seriesStatus, seriesLeader, redOffFieldTeamIds, blueOffFieldTeamIds)
        | None => None
        end
    | model.OtherMatchType => Some ("", "", [], [])
    end in
  match series with
  | None => None
  | Some (seriesStatus, seriesLeader, redOffFieldTeamIds, blueOffFieldTeamIds) =>
      let redRankings : gmap Z (option nat) :=
        <[model.Red3 (SavedMatch arena) := None]>
          (<[model.Red2 (SavedMatch arena) := None]>
             (<[model.Red1 (SavedMatch arena) := None]> ∅)) in
      let blueRankings : gmap Z (option nat) :=
        <[model.Blue3 (SavedMatch arena) := None]>
          (<[model.Blue2 (SavedMatch arena) := None]>
             (<[model.Blue1 (SavedMatch arena) := None]> ∅)) in
      let '(redRankings, blueRankings) :=
        savedRankingsFrom 0 (SavedRankings arena) redRankings blueRankings in
      Some {| ScorePosted.Match := SavedMatch arena;
              ScorePosted.RedScoreSummary := redScoreSummary;
              ScorePosted.BlueScoreSummary := blueScoreSummary;
              ScorePosted.RedRankingPoints := redRankingPoints;
              ScorePosted.BlueRankingPoints := blueRankingPoints;
              ScorePosted.RedFouls := SavedRedFouls arena;
              ScorePosted.BlueFouls := SavedBlueFouls arena;
              ScorePosted.RulesViolated :=
                getRulesViolated (SavedRedFouls arena) (SavedBlueFouls arena);
              ScorePosted.RedCards := SavedRedCards arena;
              ScorePosted.BlueCards := SavedBlueCards arena;
              ScorePosted.RedRankings := redRankings;
              ScorePosted.BlueRankings := blueRankings;
              ScorePosted.RedOffFieldTeamIds := redOffFieldTeamIds;
              ScorePosted.BlueOffFieldTeamIds := blueOffFieldTeamIds;
              ScorePosted.SeriesStatus := seriesStatus;
              ScorePosted.SeriesLeader := seriesLeader |}
  end.

End field.

(** ** An arena to run the messages with *)

Module exampleArena.

Record Arena := {
  current : model.Match;
  saved : model.Match;
  rankings : list Z;
  stations : gmap string (option Z);
  channel : Z;
  statuses : list string;
  statuses2 : list string;
  redBonus : Z;
  blueBonus : Z;
  redFouls : list game.Foul;
  blueFouls : list game.Foul
}.

(** A rule is its text, a score summary its bonus ranking points, a
    ranking and a team their team number; the database knows the teams
    and rankings below 1000. *)
#[export] Instance env : field.Env := {|
  field.Arena := Arena;
  field.Rule := string;
  field.ScoreSummary := Z;
  field.Ranking := Z;
  field.Matchup := string;
  field.Team := Z;
  field.AllianceStation := option Z;
  field.TeamWifiStatus := string;
  field.MatchState := unit;
  field.GetRuleById := λ id, if decide (0 < id) then Some (idToKey id) else None;
  field.BonusRankingPoints := λ summary, summary;
  field.TeamId := λ ranking, ranking;
  field.TeamNumber := λ team, team;
  field.StationTeam := λ station, station;
  field.StatusText := λ matchup, (λ m, (m, "leads")) <$> matchup;
  field.CurrentMatch := current;
  field.SavedMatch := saved;
  field.SavedRankings := rankings;
  field.AllianceStations := stations;
  field.ArenaMatchState := λ _, tt;
  field.Ap2TeamChannel := channel;
  field.accessPointStatuses := statuses;
  field.accessPoint2Statuses := statuses2;
  field.SavedRedScoreSummary := redBonus;
  field.SavedBlueScoreSummary := blueBonus;
  field.SavedRedFouls := redFouls;
  field.SavedBlueFouls := blueFouls;
  field.SavedRedCards := λ _, ∅;
  field.SavedBlueCards := λ _, ∅;
  field.checkCanStartMatchIsNil := λ _, true;
  field.PlcIsHealthy := λ _, true;
  field.PlcGetFieldEstop := λ _, false;
  field.PlcGetArmorBlockStatuses := λ _, ∅;
  field.GetMatchup := λ _ round group, Some "red";
  field.GetOffFieldTeamIds := λ _ _, ([7; 2000], []);
  field.GetRankingForTeam := λ _ team, if decide (team < 1000) then Some team else None;
  field.GetTeamById := λ _ team, if decide (team < 1000) then Some team else None
|}.

Definition aMatch (type : model.MatchType) (status : game.MatchStatus) : model.Match :=
  {| model.Id := 12; model.Type' := type; model.Status := status;
     model.PlayoffRound := 1; model.PlayoffGroup := 1;
     model.Red1 := 254; model.Red2 := 1678; model.Red3 := 971;
     model.Blue1 := 118; model.Blue2 := 148; model.Blue3 := 254 |}.

Definition arena (type : model.MatchType) (status : game.MatchStatus) : Arena :=
  {| current := aMatch type status;
     saved := aMatch type status;
     rankings := [118; 254; 33; 254];
     stations := {[ "R1" := Some 254; "R2" := None; "B1" := Some 118; "B3" := Some 254 ]};
     channel := 36;
     statuses := ["r1"; "r2"; "r3"; "x"; "y"; "z"];
     statuses2 := ["u"; "v"; "w"; "b1"; "b2"; "b3"];
     redBonus := 1;
     blueBonus := 0;
     redFouls := [ {| game.RuleId := 3 |}; {| game.RuleId := 0 |} ];
     blueFouls := [ {| game.RuleId := 3 |} ] |}.

End exampleArena.

(** * The words of the properties *)

(** The loop over the saved rankings for the map of one alliance. *)
Fixpoint rankingsFrom `{field.Env} (index : nat) (savedRankings : list field.Ranking)
    (rankings : gmap Z (option nat)) : gmap Z (option nat) :=
  match savedRankings with
  | [] => rankings
  | ranking :: rest => rankingsFrom (S index) rest (field.setRanking rankings index ranking)
  end.

(** No ranking in the list is the one of the team. *)
Definition unranked `{field.Env} (team : Z) (savedRankings : list field.Ranking) : Prop :=
  Forall (λ ranking, field.TeamId ranking ≠ team) savedRankings.

(** The ranking points that the result of the match is worth to both
    alliances together. *)
Definition pointsForResult (status : game.MatchStatus) : Z :=
  match status with
  | game.OtherMatchStatus => 0
  | _ => 2
  end.

(** The record with the identifier written to its field. *)
Definition withId (value : list FieldVal) (i : nat) (id : Z) : list FieldVal :=
  <[i := VInt64 id]> value.

(** The identifier that the next [create] generates. *)
Definition nextId (b : Bucket) : Z := int64_of_uint64 (uint64_succ (sequence b)).

(** The bucket that [create] leaves behind when it succeeds. *)
Definition created (b : Bucket) (id : Z) (data : string) : Bucket :=
  {| entries := <[idToKey id := data]> (entries b);
     sequence := uint64_succ (sequence b) |}.

(** The bucket that [update] leaves behind when it succeeds. *)
Definition updated (b : Bucket) (id : Z) (data : string) : Bucket :=
  {| entries := <[idToKey id := data]> (entries b); sequence := sequence b |}.

(** The bucket that [delete] leaves behind when it succeeds. *)
Definition deleted (b : Bucket) (id : Z) : Bucket :=
  {| entries := base.delete (idToKey id) (entries b); sequence := sequence b |}.

(** What a call can do to the bucket [k] of its table: nothing, or one of
    the four writes. The list holds the identifier that is handed out. *)
Inductive transition (k : string) (op : Op) (db : DB) : DB → list Z → Prop :=
| tr_none :
    transition k op db db []
| tr_create b data :
    db !! k = Some b →
    entries b !! idToKey (nextId b) = None →
    transition k op db (<[k := created b (nextId b) data]> db) [nextId b]
| tr_update b id data :
    db !! k = Some b →
    is_Some (entries b !! idToKey id) →
    transition k op db (<[k := updated b id data]> db) []
| tr_delete b id :
    db !! k = Some b →
    op = OpDelete id →
    is_Some (entries b !! idToKey id) →
    transition k op db (<[k := deleted b id]> db) []
| tr_truncate b :
    db !! k = Some b →
    op = OpTruncate →
    transition k op db (<[k := emptyBucket]> db) [].

(** A bucket whose entries all sit at keys of identifiers that its
    counter has passed. *)
Definition consistent (b : Bucket) : Prop :=
  0 ≤ sequence b ∧
  ∀ key, is_Some (entries b !! key) → ∃ id, 0 < id ≤ sequence b ∧ key = idToKey id.

(** The identifier has no entry in the bucket of the table. *)
Definition absent (t : table) (id : Z) (db : DB) : Prop :=
  ∃ b, db !! bucketKey t = Some b ∧ entries b !! idToKey id = None.

(** The field that carries the identifier designation: the first one
    tagged [db:"id"], with its index. *)
Definition designated (st : StructType) : option (nat * StructField) :=
  list_find (λ f, fieldTagDb f = "id") (structFields st).

(** The codec decodes the value of the entry to the record. *)
Definition decodesTo
    (Unmarshal : StructType → string → list FieldVal → option (list FieldVal))
    (ty : StructType) (kv : string * string) (r : list FieldVal) : Prop :=
  Unmarshal ty kv.2 (zeroStruct ty) = Some r.

(** The identifier whose entry a call may write: the one [delete] is given,
    the one in the record handed to [update], the one [create] generates. *)
Definition writes (t : table) (op : Op) (b : Bucket) : list Z :=
  match op with
  | OpCreate _ => [nextId b]
  | OpUpdate (VPtr _ value) =>
      match idFieldIndex t with
      | Some i => option_list (FieldInt value i)
      | None => []
      end
  | OpDelete id => [id]
  | _ => []
  end.

(** * Properties *)

(** ** Keys and machine integers *)

Lemma to_int_not_nil (z : Z) : Z.to_int z ≠ Decimal.Pos Decimal.Nil ∧ Z.to_int z ≠ Decimal.Neg Decimal.Nil.
Proof.
  destruct z as [|p|p]; simpl; split; try discriminate; intros [= E];
    unfold Pos.to_uint in E;
    pose proof (DecimalPos.Unsigned.to_uint_nonnil p) as Hn;
    unfold Pos.to_uint in Hn; rewrite E in Hn; simpl in Hn; contradiction.
Qed.

(** Two identifiers with the same key are equal. *)
Lemma idToKey_inj (a b : Z) : idToKey a = idToKey b → a = b.
Proof.
  unfold idToKey. intros E.
  destruct (to_int_not_nil a) as [Ha1 Ha2], (to_int_not_nil b) as [Hb1 Hb2].
  apply DecimalZ.to_int_inj.
  pose proof (NilZero.isi _ Ha1 Ha2) as Ea.
  pose proof (NilZero.isi _ Hb1 Hb2) as Eb.
  rewrite E in Ea. congruence.
Qed.

Lemma uint64_succ_small (n : Z) : 0 ≤ n < 2 ^ 64 - 1 → uint64_succ n = n + 1.
Proof. intros ?. unfold uint64_succ. apply Z.mod_small. lia. Qed.

Lemma int64_of_uint64_small (n : Z) : n < 2 ^ 63 → int64_of_uint64 n = n.
Proof. intros ?. unfold int64_of_uint64. by rewrite decide_True. Qed.

Lemma next_id_small (n : Z) :
  0 ≤ n < 2 ^ 63 - 1 → int64_of_uint64 (uint64_succ n) = n + 1.
Proof.
  intros ?. rewrite uint64_succ_small by lia. apply int64_of_uint64_small. lia.
Qed.

(** ** The database as a map *)

Lemma db_lookup_insert (db : DB) (k : string) (b : Bucket) : <[k := b]> db !! k = Some b.
Proof. apply lookup_insert_eq. Qed.

Lemma db_insert_insert (db : DB) (k : string) (b b' : Bucket) :
  <[k := b']> (<[k := b]> db) = <[k := b']> db.
Proof. apply insert_insert_eq. Qed.

Lemma db_insert_delete (db : DB) (k : string) (b : Bucket) :
  <[k := b]> (base.delete k db) = <[k := b]> db.
Proof. apply insert_delete_eq. Qed.

Lemma db_lookup_delete (db : DB) (k : string) : base.delete k db !! k = None.
Proof. apply lookup_delete_eq. Qed.

(** Unfolds the transaction monad and the store's primitives. *)
Ltac unfold_tx :=
  unfold Update, View, getBucket, TxBucket, NextSequence, Put, Delete, onBucket, Get,
    CreateBucket, DeleteBucket, CreateBucketIfNotExists, load, store, fail, ret, bind;
  cbv beta iota zeta.

(** Runs the transaction as far as the known lookups allow. *)
Ltac tx_simpl :=
  repeat first
    [ progress cbv beta iota zeta
    | progress cbn [entries sequence]
    | rewrite db_lookup_insert
    | rewrite db_insert_insert
    | rewrite db_lookup_delete
    | rewrite db_insert_delete
    | match goal with
      | H : ?m !! ?k = _ |- context [?m !! ?k] => rewrite H
      end ].

(** ** The shape check *)

(** For a value of the expected shape the loop over the kinds reaches the
    struct type [ty]; what is left are the two checks on the table. *)
Ltac validate_shape t ty :=
  unfold validateType, ValueType; simpl;
  destruct (decide (TStruct ty ≠ recordType t)) as [Hne|Heq];
  [ split; [done|]; intros [E _]; by destruct Hne
  | apply dec_stable in Heq;
    destruct (decide (idFieldIndex t = None)) as [E|E];
    [ split; [done|]; intros [_ [i Hi]]; congruence
    | split; [|done]; intros _; split; [done|];
      by destruct (idFieldIndex t); [eexists|] ] ].

Lemma validateType_ptr_struct (t : table) (ty : StructType) (value : list FieldVal) :
  validateType t (VPtr ty value) [Ptr; Struct] = None ↔
  recordType t = TStruct ty ∧ is_Some (idFieldIndex t).
Proof. validate_shape t ty. Qed.

Lemma validateType_ptr_ptr_struct (t : table) (ty : StructType) target :
  validateType t (VPtrPtr ty target) [Ptr; Ptr; Struct] = None ↔
  recordType t = TStruct ty ∧ is_Some (idFieldIndex t).
Proof. validate_shape t ty. Qed.

Lemma validateType_ptr_slice_struct (t : table) (ty : StructType) elems :
  validateType t (VPtrSlice ty elems) [Ptr; Slice; Struct] = None ↔
  recordType t = TStruct ty ∧ is_Some (idFieldIndex t).
Proof. validate_shape t ty. Qed.

(** ** What each operation computes *)

Section Equations.

Variable Marshal : StructType → list FieldVal → option string.
Variable Unmarshal : StructType → string → list FieldVal → option (list FieldVal).

Lemma create_unfold t ty value i db :
  recordType t = TStruct ty → idFieldIndex t = Some i → FieldInt value i = Some 0 →
  create Marshal t (VPtr ty value) db =
    match db !! bucketKey t with
    | None => (Some (ErrUnknownTable (name t)), VPtr ty value, db)
    | Some b =>
        if CanSet ty i then
          let value' := withId value i (nextId b) in
          match entries b !! idToKey (nextId b) with
          | Some old =>
              (Some (ErrAlreadyExists (name t) (nextId b) old), VPtr ty value', db)
          | None =>
              match Marshal ty value' with
              | None => (Some ErrMarshal, VPtr ty value', db)
              | Some data =>
                  (None, VPtr ty value', <[bucketKey t := created b (nextId b) data]> db)
              end
          end
        else (Some Panic, VPtr ty value, db)
    end.
Proof.
  intros Hty Hi Hid. unfold create.
  rewrite (proj2 (validateType_ptr_struct t ty value)) by (rewrite Hi; eauto).
  rewrite Hi, Hid. rewrite decide_False by lia.
  unfold_tx.
  destruct (db !! bucketKey t) as [b|] eqn:Hb; tx_simpl; [|done].
  fold (nextId b). unfold FieldSetInt, withId.
  destruct (CanSet ty i); tx_simpl; [|done].
  destruct (entries b !! idToKey (nextId b)) as [old|]; [done|].
  destruct (Marshal ty _) as [data|]; tx_simpl; done.
Qed.

(** [create] of a record whose identifier is zero and can be set. *)
Lemma create_eq t ty value i db :
  recordType t = TStruct ty → idFieldIndex t = Some i → FieldInt value i = Some 0 →
  CanSet ty i = true →
  create Marshal t (VPtr ty value) db =
    match db !! bucketKey t with
    | None => (Some (ErrUnknownTable (name t)), VPtr ty value, db)
    | Some b =>
        let value' := withId value i (nextId b) in
        match entries b !! idToKey (nextId b) with
        | Some old =>
            (Some (ErrAlreadyExists (name t) (nextId b) old), VPtr ty value', db)
        | None =>
            match Marshal ty value' with
            | None => (Some ErrMarshal, VPtr ty value', db)
            | Some data =>
                (None, VPtr ty value', <[bucketKey t := created b (nextId b) data]> db)
            end
        end
    end.
Proof.
  intros Hty Hi Hid Hset. by rewrite (create_unfold t ty value i db Hty Hi Hid), Hset.
Qed.

(** Any other call of [create] fails, or panics, and changes nothing. *)
Lemma create_rejected t record db :
  (∃ ty value i, record = VPtr ty value ∧ recordType t = TStruct ty ∧
     idFieldIndex t = Some i ∧ FieldInt value i = Some 0 ∧ CanSet ty i = true) ∨
  (∃ e, create Marshal t record db = (Some e, record, db)).
Proof.
  destruct (validateType t record [Ptr; Struct]) as [e|] eqn:Hv;
    [right; unfold create; rewrite Hv; eauto|].
  destruct record as [| ty value | | |];
    try (right; unfold create; rewrite Hv; eauto; fail).
  pose proof Hv as Hv'. apply validateType_ptr_struct in Hv' as [Hty [i Hi]].
  destruct (FieldInt value i) as [id|] eqn:Hid;
    [|right; unfold create; rewrite Hv, Hi, Hid; eauto].
  destruct (decide (id ≠ 0)) as [|Hz];
    [right; unfold create; rewrite Hv, Hi, Hid, decide_True by done; eauto|].
  apply dec_stable in Hz. subst id.
  destruct (CanSet ty i) eqn:Hset; [left; eauto 10|].
  right. rewrite (create_unfold t ty value i db Hty Hi Hid), Hset.
  destruct (db !! bucketKey t); eauto.
Qed.

Lemma update_eq t ty value i id db :
  recordType t = TStruct ty → idFieldIndex t = Some i → FieldInt value i = Some id →
  id ≠ 0 →
  update Marshal t (VPtr ty value) db =
    match db !! bucketKey t with
    | None => (Some (ErrUnknownTable (name t)), VPtr ty value, db)
    | Some b =>
        match entries b !! idToKey id with
        | None => (Some (ErrUpdateNonExistent (name t) id), VPtr ty value, db)
        | Some _ =>
            match Marshal ty value with
            | None => (Some ErrMarshal, VPtr ty value, db)
            | Some data => (None, VPtr ty value, <[bucketKey t := updated b id data]> db)
            end
        end
    end.
Proof.
  intros Hty Hi Hid Hnz. unfold update.
  rewrite (proj2 (validateType_ptr_struct t ty value)) by (rewrite Hi; eauto).
  rewrite Hi, Hid. rewrite decide_False by done.
  unfold_tx.
  destruct (db !! bucketKey t) as [b|] eqn:Hb; tx_simpl; [|done].
  destruct (entries b !! idToKey id) as [old|]; [|done].
  destruct (Marshal ty value) as [data|]; tx_simpl; done.
Qed.

(** Any other call of [update] fails and changes nothing. *)
Lemma update_rejected t record db :
  (∃ ty value i id, record = VPtr ty value ∧ recordType t = TStruct ty ∧
     idFieldIndex t = Some i ∧ FieldInt value i = Some id ∧ id ≠ 0) ∨
  (∃ e, update Marshal t record db = (Some e, record, db)).
Proof.
  unfold update.
  destruct (validateType t record [Ptr; Struct]) as [e|] eqn:Hv; [right; eauto|].
  destruct record as [| ty value | | |]; try (right; eauto; fail).
  apply validateType_ptr_struct in Hv as [Hty [i Hi]].
  rewrite Hi. destruct (FieldInt value i) as [id|] eqn:Hid; [|right; eauto].
  destruct (decide (id = 0)) as [|Hz]; [right; eauto|].
  left. eauto 10.
Qed.

Lemma delete_eq t id db :
  delete t id db =
    match db !! bucketKey t with
    | None => (Some (ErrUnknownTable (name t)), db)
    | Some b =>
        match entries b !! idToKey id with
        | None => (Some (ErrDeleteNonExistent (name t) id), db)
        | Some _ => (None, <[bucketKey t := deleted b id]> db)
        end
    end.
Proof.
  unfold delete. unfold_tx.
  destruct (db !! bucketKey t) as [b|] eqn:Hb; tx_simpl; [|done].
  destruct (entries b !! idToKey id) as [old|]; tx_simpl; done.
Qed.

Lemma truncate_eq t db :
  truncate t db =
    match db !! bucketKey t with
    | None => (Some (ErrUnknownTable (name t)), db)
    | Some _ => (None, <[bucketKey t := emptyBucket]> db)
    end.
Proof.
  unfold truncate. unfold_tx.
  destruct (db !! bucketKey t) as [b|] eqn:Hb; tx_simpl; done.
Qed.

Lemma getById_eq t ty id target db :
  recordType t = TStruct ty → is_Some (idFieldIndex t) →
  getById Unmarshal t id (VPtrPtr ty target) db =
    match db !! bucketKey t with
    | None => (Some (ErrUnknownTable (name t)), VPtrPtr ty target, db)
    | Some b =>
        match entries b !! idToKey id with
        | None => (None, VPtrPtr ty None, db)
        | Some data =>
            match Unmarshal ty data (default (zeroStruct ty) target) with
            | Some decoded => (None, VPtrPtr ty (Some decoded), db)
            | None => (Some ErrUnmarshal, VPtrPtr ty target, db)
            end
        end
    end.
Proof.
  intros Hty Hi. unfold getById.
  rewrite (proj2 (validateType_ptr_ptr_struct t ty target)) by done.
  unfold_tx.
  destruct (db !! bucketKey t) as [b|] eqn:Hb; tx_simpl; [|done].
  destruct (entries b !! idToKey id) as [data|]; [|done].
  destruct (Unmarshal ty data _) as [decoded|]; done.
Qed.

(** The reads leave the database as it is. *)
Lemma getById_db t id record db : (getById Unmarshal t id record db).2 = db.
Proof.
  unfold getById, View.
  repeat case_match; simplify_eq; done.
Qed.

Lemma getAll_db t recordSlice db : (getAll Unmarshal t recordSlice db).2 = db.
Proof.
  unfold getAll, View.
  repeat case_match; simplify_eq; done.
Qed.

End Equations.

(** ** Fields *)

Lemma FieldInt_set (value : list FieldVal) (i : nat) (x y : Z) :
  FieldInt value i = Some x → FieldInt (withId value i y) i = Some y.
Proof.
  unfold FieldInt, withId. intros H.
  destruct (value !! i) as [v|] eqn:Hv; [|done].
  rewrite list_lookup_insert_eq; [done|]. by eapply lookup_lt_Some.
Qed.

(** ** One call as a transition of the bucket *)

Section Histories.

Variable Marshal : StructType → list FieldVal → option string.
Variable Unmarshal : StructType → string → list FieldVal → option (list FieldVal).

Abbreviation step := (step Marshal Unmarshal).
Abbreviation run := (run Marshal Unmarshal).

Lemma step_transition t op db :
  transition (bucketKey t) op db (step t op db).1 (step t op db).2.
Proof.
  destruct op as [id record | recordSlice | record | record | id |]; simpl.
  - rewrite getById_db. constructor.
  - rewrite getAll_db. constructor.
  - destruct (create_rejected Marshal t record db)
      as [(ty & value & i & -> & Hty & Hi & Hid & Hset) | [e He]].
    + rewrite (create_eq Marshal t ty value i db Hty Hi Hid Hset).
      destruct (db !! bucketKey t) as [b|] eqn:Hb; simpl; [|constructor].
      destruct (entries b !! idToKey (nextId b)) as [old|] eqn:Hold; simpl;
        [constructor|].
      destruct (Marshal ty _) as [data|]; simpl; [|constructor].
      unfold assignedId. rewrite Hi, (FieldInt_set _ _ _ _ Hid). simpl.
      by econstructor.
    + rewrite He. simpl. constructor.
  - destruct (update_rejected Marshal t record db)
      as [(ty & value & i & id & -> & Hty & Hi & Hid & Hnz) | [e He]].
    + rewrite (update_eq Marshal t ty value i id db Hty Hi Hid Hnz).
      destruct (db !! bucketKey t) as [b|] eqn:Hb; simpl; [|constructor].
      destruct (entries b !! idToKey id) as [old|] eqn:Hold; simpl; [|constructor].
      destruct (Marshal ty value) as [data|]; simpl; [|constructor].
      eapply tr_update; [done|]. rewrite Hold. eauto.
    + rewrite He. simpl. constructor.
  - rewrite delete_eq.
    destruct (db !! bucketKey t) as [b|] eqn:Hb; simpl; [|constructor].
    destruct (entries b !! idToKey id) as [old|] eqn:Hold; simpl; [|constructor].
    eapply tr_delete; [done..|]. rewrite Hold. eauto.
  - rewrite truncate_eq.
    destruct (db !! bucketKey t) as [b|] eqn:Hb; simpl; [|constructor].
    by eapply tr_truncate.
Qed.

Lemma run_cons t op ops db :
  run t (op :: ops) db =
    ((run t ops (step t op db).1).1, (step t op db).2 ++ (run t ops (step t op db).1).2).
Proof.
  simpl. destruct (step t op db) as [db1 ids1]. simpl.
  by destruct (run t ops db1) as [db2 ids2].
Qed.

Lemma consistent_empty : consistent emptyBucket.
Proof. split; [done|]. intros key [x Hx]. simpl in Hx. by rewrite lookup_empty in Hx. Qed.

(** A call other than [truncate] leaves the counter, or advances it by one
    and hands the new value out as the identifier of the one entry it
    adds. *)
Lemma step_without_truncate t op db b :
  db !! bucketKey t = Some b →
  isTruncate op = false →
  0 ≤ sequence b < 2 ^ 63 - 1 →
  ∃ b1,
    (step t op db).1 !! bucketKey t = Some b1 ∧
    ((sequence b1 = sequence b ∧ (step t op db).2 = [] ∧
      ∀ key, is_Some (entries b1 !! key) → is_Some (entries b !! key)) ∨
     (sequence b1 = sequence b + 1 ∧ (step t op db).2 = [sequence b + 1] ∧
      ∀ key, is_Some (entries b1 !! key) →
        is_Some (entries b !! key) ∨ key = idToKey (sequence b + 1))).
Proof.
  intros Hb Hop Hseq.
  destruct (step_transition t op db)
    as [| b0 data Hb0 Hnew | b0 id data Hb0 Hold | b0 id Hb0 _ Hold | b0 Hb0 ->];
    try (rewrite Hb in Hb0; injection Hb0 as <-).
  - exists b. split; [done|]. left. auto.
  - assert (Hn : nextId b = sequence b + 1) by (apply next_id_small; lia).
    rewrite Hn. eexists. rewrite db_lookup_insert. split; [done|]. right. simpl.
    rewrite uint64_succ_small by lia. split; [done|]. split; [done|].
    intros key [x Hx]. destruct (decide (key = idToKey (sequence b + 1))) as [->|Hne].
    + by right.
    + rewrite lookup_insert_ne in Hx by done. left. eauto.
  - eexists. rewrite db_lookup_insert. split; [done|]. left. simpl.
    split; [done|]. split; [done|].
    intros key [x Hx]. destruct (decide (key = idToKey id)) as [->|Hne]; [done|].
    rewrite lookup_insert_ne in Hx by done. eauto.
  - eexists. rewrite db_lookup_insert. split; [done|]. left. simpl.
    split; [done|]. split; [done|].
    intros key [x Hx]. apply lookup_delete_Some in Hx as [_ Hx]. eauto.
  - done.
Qed.

(** A history without [truncate], short enough for the counter to stay
    in the positive range of [int64]: the counter only advances, by at
    most one per call; the identifiers handed out are those it passes, in
    increasing order; a consistent bucket stays consistent. *)
Lemma run_without_truncate t ops : ∀ db b,
  db !! bucketKey t = Some b →
  0 ≤ sequence b →
  forallb (negb ∘ isTruncate) ops = true →
  sequence b + Z.of_nat (length ops) < 2 ^ 63 →
  ∃ b',
    (run t ops db).1 !! bucketKey t = Some b' ∧
    (consistent b → consistent b') ∧
    sequence b ≤ sequence b' ≤ sequence b + Z.of_nat (length ops) ∧
    StronglySorted Z.lt (run t ops db).2 ∧
    Forall (λ id, sequence b < id ≤ sequence b') (run t ops db).2.
Proof.
  induction ops as [|op ops IH]; intros db b Hb Hpos Hnt Hlen.
  - simpl. exists b. split; [done|]. split; [done|]. split; [lia|].
    split; constructor.
  - rewrite run_cons. cbn [fst snd].
    simpl in Hnt. apply andb_prop in Hnt as [Hop Hnt].
    apply negb_true_iff in Hop.
    rewrite length_cons in Hlen.
    destruct (step_without_truncate t op db b Hb Hop) as (b1 & Hb1 & Hcase); [lia|].
    destruct (IH _ b1 Hb1) as (b' & Hb' & Hc' & Hseq & Hsorted & Hall);
      [destruct Hcase as [[-> _]|[-> _]]; lia | done
      | destruct Hcase as [[-> _]|[-> _]]; lia |].
    exists b'. split; [done|].
    destruct Hcase as [(E & -> & Hkeys1)|(E & -> & Hkeys1)]; rewrite E in *; simpl.
    + split.
      { intros [_ Hkeys]. apply Hc'. split; [lia|].
        intros key Hkey. rewrite E. apply Hkeys. by apply Hkeys1. }
      split; [lia|]. split; [done|].
      eapply Forall_impl; [exact Hall|]. simpl. intros; lia.
    + split.
      { intros [_ Hkeys]. apply Hc'. split; [lia|].
        intros key Hkey. rewrite E.
        destruct (Hkeys1 key Hkey) as [Hold| ->].
        - destruct (Hkeys key Hold) as (id & ? & ->). exists id. split; [lia|done].
        - exists (sequence b + 1). split; [lia|done]. }
      split; [lia|]. split.
      * constructor; [done|]. eapply Forall_impl; [exact Hall|]. simpl. intros; lia.
      * constructor; [lia|]. eapply Forall_impl; [exact Hall|]. simpl. intros; lia.
Qed.

End Histories.

(** ** Identifiers *)

Lemma StronglySorted_lt_NoDup (l : list Z) : StronglySorted Z.lt l → NoDup l.
Proof.
  induction 1 as [|x l _ IH Hall]; [constructor|].
  apply NoDup_cons. split; [|done].
  intros Hin. rewrite Forall_forall in Hall. specialize (Hall x Hin). lia.
Qed.

Example registration :
  newTable (VStruct example.Row (zeroStruct example.Row)) ∅ = (inr example.rows, example.db0).
Proof. vm_compute. reflexivity. Qed.

(** The scenario of the specification: two creates, a delete of the first
    record, and a third create that is given 3, not 1. *)
Example scenario_create_delete_create :
  let a := VPtr example.Row (example.row 0 "a") in
  let b := VPtr example.Row (example.row 0 "b") in
  let c := VPtr example.Row (example.row 0 "c") in
  let db2 := (example.run [OpCreate a; OpCreate b] example.db0).1 in
  let db3 := (example.run [OpDelete 1] db2).1 in
  (example.run [OpCreate a; OpCreate b] example.db0).2 = [1; 2] ∧
  (example.getAll (VPtrSlice example.Row []) db2).1 =
    (None, VPtrSlice example.Row [example.row 1 "a"; example.row 2 "b"]) ∧
  (example.getAll (VPtrSlice example.Row []) db3).1 =
    (None, VPtrSlice example.Row [example.row 2 "b"]) ∧
  (example.create c db3).1 = (None, VPtr example.Row (example.row 3 "c")).
Proof. vm_compute. repeat split; reflexivity. Qed.

(** C1. In a table registered on a fresh bucket, after any history of calls
    without truncate (deletes included), create of a record whose identifier
    is 0 succeeds; the identifier it assigns is positive and greater than
    every identifier that create has handed out before, so that no
    identifier is handed out twice. The identifier field is assumed to be
    exported, which the registration does not check: [create] panics on a
    field that it cannot set. The codec is assumed to accept the record,
    and the history to be shorter than the range of [int64]. *)
Theorem create_assigns_increasing_id
    (Marshal : StructType → list FieldVal → option string)
    (Unmarshal : StructType → string → list FieldVal → option (list FieldVal))
    (t : table) (ty : StructType) (i : nat) (ops : list Op) (db0 : DB)
    (value : list FieldVal) :
  recordType t = TStruct ty →
  idFieldIndex t = Some i →
  CanSet ty i = true →
  db0 !! bucketKey t = Some emptyBucket →
  forallb (negb ∘ isTruncate) ops = true →
  Z.of_nat (length ops) < 2 ^ 63 - 1 →
  FieldInt value i = Some 0 →
  (∀ id, is_Some (Marshal ty (withId value i id))) →
  let db := (run Marshal Unmarshal t ops db0).1 in
  let ids := (run Marshal Unmarshal t ops db0).2 in
  ∃ id db',
    create Marshal t (VPtr ty value) db = (None, VPtr ty (withId value i id), db') ∧
    FieldInt (withId value i id) i = Some id ∧
    0 < id ∧
    Forall (λ old, old < id) ids ∧
    NoDup (ids ++ [id]).
Proof.
  intros Hty Hi Hset Hb0 Hnt Hlen Hid Hcodec db ids.
  destruct (run_without_truncate Marshal Unmarshal t ops db0 emptyBucket Hb0)
    as (b & Hb & Hc & Hseq & Hsorted & Hall); [done | done | simpl; lia |].
  destruct (Hc consistent_empty) as [Hpos Hkeys].
  simpl in Hseq, Hall. fold db in Hb. fold ids in Hsorted, Hall.
  assert (Hn : nextId b = sequence b + 1) by (apply next_id_small; lia).
  assert (Hfree : entries b !! idToKey (nextId b) = None).
  { destruct (entries b !! idToKey (nextId b)) as [old|] eqn:Hold; [|done].
    destruct (Hkeys (idToKey (nextId b))) as (id & Hr & E); [eauto|].
    apply idToKey_inj in E. lia. }
  destruct (Hcodec (nextId b)) as [data Hdata].
  exists (nextId b), (<[bucketKey t := created b (nextId b) data]> db).
  split.
  { rewrite (create_eq Marshal t ty value i db Hty Hi Hid Hset), Hb. simpl.
    by rewrite Hfree, Hdata. }
  split; [by eapply FieldInt_set|].
  split; [lia|].
  assert (Hlt : Forall (λ old, old < nextId b) ids).
  { eapply Forall_impl; [exact Hall|]. simpl. intros; lia. }
  split; [done|].
  apply NoDup_app. split; [by apply StronglySorted_lt_NoDup|].
  split; [|apply NoDup_singleton].
  intros x Hx Hx'. apply list_elem_of_singleton in Hx'. subst x.
  rewrite Forall_forall in Hlt. specialize (Hlt _ Hx). lia.
Qed.

Lemma create_assigns_increasing_id_witness :
  let ops := [OpCreate (VPtr example.Row (example.row 0 "a"));
              OpCreate (VPtr example.Row (example.row 0 "b"));
              OpDelete 1] in
  let db := (example.run ops example.db0).1 in
  let ids := (example.run ops example.db0).2 in
  ∃ id db',
    example.create (VPtr example.Row (example.row 0 "c")) db =
      (None, VPtr example.Row (withId (example.row 0 "c") 0 id), db') ∧
    FieldInt (withId (example.row 0 "c") 0 id) 0 = Some id ∧
    0 < id ∧
    Forall (λ old, old < id) ids ∧
    NoDup (ids ++ [id]).
Proof.
  apply (create_assigns_increasing_id sexp.Marshal sexp.Unmarshal example.rows
           example.Row 0%nat); try reflexivity.
  intros id. eexists. reflexivity.
Defined.

(** The counterexample to C2: a create, a truncate and a second create
    hand out the identifier 1 twice, and the truncate takes the counter of
    the bucket from 1 back to 0. *)
Lemma truncate_reuses_identifier :
  let a := VPtr example.Row (example.row 0 "a") in
  let b := VPtr example.Row (example.row 0 "b") in
  let ids := (example.run [OpCreate a; OpTruncate; OpCreate b] example.db0).2 in
  ids = [1; 1] ∧ ¬ NoDup ids ∧
  sequence <$> (example.run [OpCreate a] example.db0).1 !! "Row" = Some 1 ∧
  sequence <$> (example.run [OpCreate a; OpTruncate] example.db0).1 !! "Row" = Some 0.
Proof.
  vm_compute. split; [reflexivity|]. split; [|split; reflexivity].
  intros Hnd. apply NoDup_cons in Hnd as [Hnot _]. apply Hnot. left.
Qed.

(** C2, amended. In a history without truncate the counter of the bucket
    only advances and create hands out no identifier twice; a truncate
    puts the counter back to 0, the state of a new bucket. *)
Theorem sequence_advances_until_truncate
    (Marshal : StructType → list FieldVal → option string)
    (Unmarshal : StructType → string → list FieldVal → option (list FieldVal))
    (t : table) (ops : list Op) (db : DB) (b : Bucket) :
  db !! bucketKey t = Some b →
  0 ≤ sequence b →
  forallb (negb ∘ isTruncate) ops = true →
  sequence b + Z.of_nat (length ops) < 2 ^ 63 →
  let db' := (run Marshal Unmarshal t ops db).1 in
  (∃ b', db' !! bucketKey t = Some b' ∧ sequence b ≤ sequence b') ∧
  NoDup (run Marshal Unmarshal t ops db).2 ∧
  ∃ db'', truncate t db' = (None, db'') ∧ sequence <$> db'' !! bucketKey t = Some 0.
Proof.
  intros Hb Hpos Hnt Hlen db'.
  destruct (run_without_truncate Marshal Unmarshal t ops db b Hb Hpos Hnt Hlen)
    as (b' & Hb' & _ & Hseq & Hsorted & _).
  fold db' in Hb'. split; [exists b'; split; [done|lia]|].
  split; [by apply StronglySorted_lt_NoDup|].
  exists (<[bucketKey t := emptyBucket]> db').
  rewrite truncate_eq, Hb'. split; [done|]. by rewrite db_lookup_insert.
Qed.

Lemma sequence_advances_until_truncate_witness :
  let ops := [OpCreate (VPtr example.Row (example.row 0 "a"));
              OpDelete 1;
              OpCreate (VPtr example.Row (example.row 0 "b"))] in
  let db' := (example.run ops example.db0).1 in
  (∃ b', db' !! "Row" = Some b' ∧ sequence emptyBucket ≤ sequence b') ∧
  NoDup (example.run ops example.db0).2 ∧
  ∃ db'', truncate example.rows db' = (None, db'') ∧ sequence <$> db'' !! "Row" = Some 0.
Proof.
  apply (sequence_advances_until_truncate sexp.Marshal sexp.Unmarshal example.rows
           _ example.db0 emptyBucket); reflexivity.
Defined.

(** ** Reading the whole table *)

Section GetAll.

Variable Unmarshal : StructType → string → list FieldVal → option (list FieldVal).

Lemma forEach_decode ty kvs : ∀ rs acc (db : DB),
  Forall2 (decodesTo Unmarshal ty) kvs rs →
  forEach (appendDecoded Unmarshal ty) kvs db acc = (inr tt, db, acc ++ rs).
Proof.
  induction kvs as [|[key value] kvs IH]; intros rs acc db Hdec.
  - apply Forall2_nil_inv_l in Hdec as ->. simpl. by rewrite app_nil_r.
  - apply Forall2_cons_inv_l in Hdec as (r & rs' & Hr & Hrs & ->).
    unfold decodesTo in Hr. simpl in Hr.
    simpl. unfold bind at 1. unfold appendDecoded at 1. rewrite Hr.
    unfold_tx. rewrite (IH rs' (acc ++ [r]) db Hrs).
    by rewrite <- app_assoc.
Qed.

Lemma getAll_eq t ty elems db b rs :
  recordType t = TStruct ty → is_Some (idFieldIndex t) →
  db !! bucketKey t = Some b →
  Forall2 (decodesTo Unmarshal ty) (ordered b) rs →
  getAll Unmarshal t (VPtrSlice ty elems) db = (None, VPtrSlice ty rs, db).
Proof.
  intros Hty Hi Hb Hdec. unfold getAll.
  rewrite (proj2 (validateType_ptr_slice_struct t ty elems)) by done.
  unfold ForEach. unfold_tx. tx_simpl.
  by rewrite (forEach_decode ty (ordered b) rs [] db Hdec).
Qed.

End GetAll.

#[local] Instance keyLe_total : Total keyLe.
Proof. intros x y. unfold keyLe. apply String.leb_total. Qed.

(** C3. [getAll] decodes the entries of the bucket in ascending
    byte-lexicographic order of their keys, which are the decimal texts of
    the identifiers: the order of iteration is sorted by key and holds
    every entry once; the slice that [getAll] returns holds the decoded
    entries in that order; and for a bucket that holds the records with the
    identifiers 1 to 10 the slice has them in the order
    1, 10, 2, 3, 4, 5, 6, 7, 8, 9. *)
Theorem getAll_in_key_order
    (Unmarshal : StructType → string → list FieldVal → option (list FieldVal))
    (t : table) (ty : StructType) (elems : list (list FieldVal)) (db : DB) (b : Bucket) :
  recordType t = TStruct ty →
  is_Some (idFieldIndex t) →
  db !! bucketKey t = Some b →
  (Sorted keyLe (ordered b) ∧ ordered b ≡ₚ map_to_list (entries b)) ∧
  (∀ rs, Forall2 (decodesTo Unmarshal ty) (ordered b) rs →
     getAll Unmarshal t (VPtrSlice ty elems) db = (None, VPtrSlice ty rs, db)) ∧
  (∀ (data : Z → string) (record : Z → list FieldVal),
     entries b = list_to_map ((λ id, (idToKey id, data id)) <$> [1; 2; 3; 4; 5; 6; 7; 8; 9; 10]) →
     (∀ id, 1 ≤ id ≤ 10 → Unmarshal ty (data id) (zeroStruct ty) = Some (record id)) →
     getAll Unmarshal t (VPtrSlice ty elems) db =
       (None, VPtrSlice ty (record <$> [1; 10; 2; 3; 4; 5; 6; 7; 8; 9]), db)).
Proof.
  intros Hty Hi Hb. split; [|split].
  - split; [apply Sorted_merge_sort, _ | apply merge_sort_Permutation].
  - intros rs Hdec. by eapply getAll_eq.
  - intros data record Hentries Hdata.
    eapply getAll_eq; [done..|].
    unfold ordered. rewrite Hentries.
    replace (merge_sort keyLe
               (map_to_list
                  (list_to_map ((λ id, (idToKey id, data id)) <$> [1; 2; 3; 4; 5; 6; 7; 8; 9; 10])
                     : gmap string string)))
      with ((λ id, (idToKey id, data id)) <$> [1; 10; 2; 3; 4; 5; 6; 7; 8; 9])
      by (vm_compute; reflexivity).
    simpl. repeat constructor; unfold decodesTo; simpl; apply Hdata; lia.
Qed.

Lemma getAll_in_key_order_witness :
  let record := VPtr example.Row (example.row 0 "r") in
  let db := (example.run (replicate 10 (OpCreate record)) example.db0).1 in
  example.getAll (VPtrSlice example.Row []) db =
    (None, VPtrSlice example.Row ((λ id, example.row id "r") <$> [1; 10; 2; 3; 4; 5; 6; 7; 8; 9]), db).
Proof.
  intros record db.
  assert (Hb : ∃ b, db !! "Row" = Some b) by (vm_compute; eauto).
  destruct Hb as [b Hb].
  refine (proj2 (proj2 (getAll_in_key_order sexp.Unmarshal example.rows example.Row []
            db b eq_refl (ex_intro _ _ eq_refl) Hb))
          (λ id, default "" (sexp.Marshal example.Row (example.row id "r")))
          (λ id, example.row id "r") _ _).
  - vm_compute in Hb. injection Hb as <-. vm_compute. reflexivity.
  - intros id Hid.
    assert (Hcases : id = 1 ∨ id = 2 ∨ id = 3 ∨ id = 4 ∨ id = 5 ∨ id = 6 ∨ id = 7 ∨
                     id = 8 ∨ id = 9 ∨ id = 10) by lia.
    repeat destruct Hcases as [-> | Hcases]; try subst id; vm_compute; reflexivity.
Defined.

(** ** Records that are not there *)

Section Absence.

Variable Marshal : StructType → list FieldVal → option string.
Variable Unmarshal : StructType → string → list FieldVal → option (list FieldVal).

Lemma absent_fresh t id db : db !! bucketKey t = Some emptyBucket → absent t id db.
Proof. intros Hb. exists emptyBucket. split; [done|]. apply lookup_empty. Qed.

Lemma absent_deleted t id db db' : delete t id db = (None, db') → absent t id db'.
Proof.
  rewrite delete_eq. intros Hdel.
  destruct (db !! bucketKey t) as [b|]; [|done].
  destruct (entries b !! idToKey id); [|done].
  injection Hdel as <-. exists (deleted b id). split; [apply db_lookup_insert|].
  apply lookup_delete_eq.
Qed.

(** An absent identifier stays absent until a create hands it out. *)
Lemma absent_preserved t id ops : ∀ db,
  absent t id db →
  id ∉ (run Marshal Unmarshal t ops db).2 →
  absent t id (run Marshal Unmarshal t ops db).1.
Proof.
  induction ops as [|op ops IH]; intros db Habs Hnot; [done|].
  rewrite run_cons in *. cbn [fst snd] in *.
  apply not_elem_of_app in Hnot as [Hnot1 Hnot2].
  apply IH; [|done]. clear IH Hnot2.
  destruct Habs as (b & Hb & Hnone).
  destruct (step_transition Marshal Unmarshal t op db)
    as [| b0 data Hb0 Hnew | b0 id' data Hb0 Hold | b0 id' Hb0 _ Hold | b0 Hb0 _];
    try (rewrite Hb in Hb0; injection Hb0 as <-).
  - by exists b.
  - eexists. split; [apply db_lookup_insert|]. simpl.
    apply lookup_insert_None. split; [done|].
    intros E. apply idToKey_inj in E. apply Hnot1. rewrite E. left.
  - eexists. split; [apply db_lookup_insert|]. simpl.
    apply lookup_insert_None. split; [done|].
    intros E. rewrite E, Hnone in Hold. by destruct Hold.
  - eexists. split; [apply db_lookup_insert|]. simpl.
    apply lookup_delete_None. by right.
  - eexists. split; [apply db_lookup_insert|]. apply lookup_empty.
Qed.

Lemma getById_absent t ty id target db :
  recordType t = TStruct ty → is_Some (idFieldIndex t) →
  absent t id db →
  getById Unmarshal t id (VPtrPtr ty target) db = (None, VPtrPtr ty None, db).
Proof.
  intros Hty Hi (b & Hb & Hnone).
  by rewrite (getById_eq Unmarshal t ty id target db Hty Hi), Hb, Hnone.
Qed.

End Absence.

(** C4. When [create] succeeds, [getById] with the identifier that the
    record now holds returns a record equal to the record as [create]
    left it, assigned identifier included. The codec is assumed to decode
    what it encoded for this record. *)
Theorem getById_after_create
    (Marshal : StructType → list FieldVal → option string)
    (Unmarshal : StructType → string → list FieldVal → option (list FieldVal))
    (t : table) (record : Value) (ty : StructType) (value' : list FieldVal)
    (db db' : DB) (target : option (list FieldVal)) :
  create Marshal t record db = (None, VPtr ty value', db') →
  (∀ data into, Marshal ty value' = Some data → Unmarshal ty data into = Some value') →
  ∃ i id,
    idFieldIndex t = Some i ∧
    FieldInt value' i = Some id ∧
    getById Unmarshal t id (VPtrPtr ty target) db' = (None, VPtrPtr ty (Some value'), db').
Proof.
  intros Hcreate Hcodec.
  destruct (create_rejected Marshal t record db)
    as [(ty0 & value & i & -> & Hty & Hi & Hid & Hset) | [e He]]; [|congruence].
  rewrite (create_eq Marshal t ty0 value i db Hty Hi Hid Hset) in Hcreate.
  destruct (db !! bucketKey t) as [b|] eqn:Hb; [|done]. simpl in Hcreate.
  destruct (entries b !! idToKey (nextId b)) as [old|] eqn:Hold; [done|].
  destruct (Marshal ty0 _) as [data|] eqn:Hdata; [|done].
  injection Hcreate as <- <- <-.
  exists i, (nextId b). split; [done|]. split; [by eapply FieldInt_set|].
  rewrite (getById_eq Unmarshal t ty0 (nextId b) target _ Hty) by (rewrite Hi; eauto).
  rewrite db_lookup_insert. simpl. rewrite lookup_insert_eq.
  by rewrite (Hcodec data _ Hdata).
Qed.

Lemma getById_after_create_witness :
  let db' := (example.create (VPtr example.Row (example.row 0 "a")) example.db0).2 in
  ∃ i id,
    idFieldIndex example.rows = Some i ∧
    FieldInt (example.row 1 "a") i = Some id ∧
    example.getById id (VPtrPtr example.Row None) db' =
      (None, VPtrPtr example.Row (Some (example.row 1 "a")), db').
Proof.
  apply (getById_after_create sexp.Marshal sexp.Unmarshal example.rows
           (VPtr example.Row (example.row 0 "a")) example.Row (example.row 1 "a")
           example.db0).
  - vm_compute. reflexivity.
  - intros data into Hdata. vm_compute in Hdata. injection Hdata as <-.
    vm_compute. reflexivity.
Defined.

(** C5. For an identifier that create never handed out since the bucket
    was made, or whose record was deleted and that was not handed out
    again, [getById] with a double pointer of the table's type returns no
    error and sets the record pointer to nil. *)
Theorem getById_absent_is_not_an_error
    (Marshal : StructType → list FieldVal → option string)
    (Unmarshal : StructType → string → list FieldVal → option (list FieldVal))
    (t : table) (ty : StructType) (id : Z) (target : option (list FieldVal))
    (db1 : DB) (ops : list Op) :
  recordType t = TStruct ty →
  is_Some (idFieldIndex t) →
  db1 !! bucketKey t = Some emptyBucket ∨ (∃ db0, delete t id db0 = (None, db1)) →
  id ∉ (run Marshal Unmarshal t ops db1).2 →
  let db := (run Marshal Unmarshal t ops db1).1 in
  getById Unmarshal t id (VPtrPtr ty target) db = (None, VPtrPtr ty None, db).
Proof.
  intros Hty Hi Hstart Hnot db.
  apply getById_absent; [done..|].
  apply absent_preserved; [|done].
  destruct Hstart as [Hfresh | [db0 Hdel]].
  - by apply absent_fresh.
  - by eapply absent_deleted.
Qed.

Lemma getById_absent_is_not_an_error_witness :
  let a := VPtr example.Row (example.row 0 "a") in
  let db1 := (delete example.rows 1 (example.run [OpCreate a; OpCreate a] example.db0).1).2 in
  let db := (example.run [OpCreate a] db1).1 in
  example.getById 1 (VPtrPtr example.Row (Some (example.row 7 "z"))) db =
    (None, VPtrPtr example.Row None, db).
Proof.
  intros a db1.
  apply (getById_absent_is_not_an_error sexp.Marshal sexp.Unmarshal example.rows
           example.Row 1 _ db1 [OpCreate a]).
  - reflexivity.
  - eexists. reflexivity.
  - right. exists (example.run [OpCreate a; OpCreate a] example.db0).1.
    vm_compute. reflexivity.
  - vm_compute. intros Hin. apply list_elem_of_singleton in Hin. discriminate.
Defined.

(** C6. [update] of a record whose identifier is not zero and has no
    entry in the bucket fails with the error for a non-existent record and
    leaves the record and the database as they were: nothing is inserted. *)
Theorem update_nonexistent_fails
    (Marshal : StructType → list FieldVal → option string)
    (t : table) (ty : StructType) (i : nat) (value : list FieldVal) (id : Z)
    (db : DB) (b : Bucket) :
  recordType t = TStruct ty →
  idFieldIndex t = Some i →
  FieldInt value i = Some id →
  id ≠ 0 →
  db !! bucketKey t = Some b →
  entries b !! idToKey id = None →
  update Marshal t (VPtr ty value) db =
    (Some (ErrUpdateNonExistent (name t) id), VPtr ty value, db).
Proof.
  intros Hty Hi Hid Hnz Hb Hnone.
  by rewrite (update_eq Marshal t ty value i id db Hty Hi Hid Hnz), Hb, Hnone.
Qed.

Lemma update_nonexistent_fails_witness :
  let a := VPtr example.Row (example.row 0 "a") in
  let db := (example.run [OpCreate a] example.db0).1 in
  update sexp.Marshal example.rows (VPtr example.Row (example.row 5 "e")) db =
    (Some (ErrUpdateNonExistent "Row" 5), VPtr example.Row (example.row 5 "e"), db).
Proof.
  intros a db.
  assert (Hb : ∃ b, db !! "Row" = Some b ∧ entries b !! idToKey 5 = None)
    by (vm_compute; eauto).
  destruct Hb as (b & Hb & Hnone).
  exact (update_nonexistent_fails sexp.Marshal example.rows example.Row 0%nat
           (example.row 5 "e") 5 db b eq_refl eq_refl eq_refl ltac:(lia) Hb Hnone).
Defined.

Section Deleting.

Variable Marshal : StructType → list FieldVal → option string.
Variable Unmarshal : StructType → string → list FieldVal → option (list FieldVal).

Lemma consistent_deleted b id : consistent b → consistent (deleted b id).
Proof.
  intros [Hpos Hkeys]. split; [done|]. simpl.
  intros key [x Hx]. apply lookup_delete_Some in Hx as [_ Hx]. apply Hkeys. eauto.
Qed.

(** In a history without truncate the identifier of a stored record is
    not handed out again. *)
Lemma stored_id_not_reassigned t id ops db b :
  db !! bucketKey t = Some b →
  consistent b →
  0 < id ≤ sequence b →
  forallb (negb ∘ isTruncate) ops = true →
  sequence b + Z.of_nat (length ops) < 2 ^ 63 →
  id ∉ (run Marshal Unmarshal t ops db).2.
Proof.
  intros Hb Hc Hid Hnt Hlen Hin.
  destruct (run_without_truncate Marshal Unmarshal t ops db b Hb (proj1 Hc) Hnt Hlen)
    as (b' & _ & _ & _ & _ & Hall).
  rewrite Forall_forall in Hall. specialize (Hall id Hin). simpl in Hall. lia.
Qed.

End Deleting.

(** C7. [delete] of an identifier that has no entry fails with the error
    for a non-existent record and changes nothing. When the entry exists,
    [delete] removes it: [getById] then returns the nil record (no error),
    and keeps doing so after any later calls as long as no create hands the
    identifier out again, which no create does in a history without
    truncate on a consistent bucket. *)
Theorem delete_removes_or_reports_missing
    (Marshal : StructType → list FieldVal → option string)
    (Unmarshal : StructType → string → list FieldVal → option (list FieldVal))
    (t : table) (ty : StructType) (id : Z) (db : DB) (b : Bucket) :
  recordType t = TStruct ty →
  is_Some (idFieldIndex t) →
  db !! bucketKey t = Some b →
  (entries b !! idToKey id = None →
     delete t id db = (Some (ErrDeleteNonExistent (name t) id), db)) ∧
  (is_Some (entries b !! idToKey id) →
     ∃ db1,
       delete t id db = (None, db1) ∧
       (∀ target,
          getById Unmarshal t id (VPtrPtr ty target) db1 = (None, VPtrPtr ty None, db1)) ∧
       (∀ ops target,
          id ∉ (run Marshal Unmarshal t ops db1).2 →
          let db2 := (run Marshal Unmarshal t ops db1).1 in
          getById Unmarshal t id (VPtrPtr ty target) db2 = (None, VPtrPtr ty None, db2)) ∧
       (∀ ops target,
          consistent b →
          forallb (negb ∘ isTruncate) ops = true →
          sequence b + Z.of_nat (length ops) < 2 ^ 63 →
          let db2 := (run Marshal Unmarshal t ops db1).1 in
          getById Unmarshal t id (VPtrPtr ty target) db2 = (None, VPtrPtr ty None, db2))).
Proof.
  intros Hty Hi Hb. split.
  - intros Hnone. by rewrite delete_eq, Hb, Hnone.
  - intros [old Hold].
    exists (<[bucketKey t := deleted b id]> db).
    assert (Hdel : delete t id db = (None, <[bucketKey t := deleted b id]> db))
      by (by rewrite delete_eq, Hb, Hold).
    pose proof (absent_deleted t id db _ Hdel) as Habs.
    split; [done|]. split; [|split].
    + intros target. by apply getById_absent.
    + intros ops target Hnot db2. apply getById_absent; [done..|].
      by apply (absent_preserved Marshal Unmarshal).
    + intros ops target Hc Hnt Hlen db2. apply getById_absent; [done..|].
      apply (absent_preserved Marshal Unmarshal); [done|].
      destruct Hc as [Hpos Hkeys].
      destruct (Hkeys (idToKey id)) as (id' & Hr & E); [eauto|].
      apply idToKey_inj in E. subst id'.
      eapply (stored_id_not_reassigned Marshal Unmarshal t id ops _ (deleted b id));
        [apply db_lookup_insert | by apply consistent_deleted | done..].
Qed.

Lemma delete_removes_or_reports_missing_witness :
  let a := VPtr example.Row (example.row 0 "a") in
  let db := (example.run [OpCreate a; OpCreate a] example.db0).1 in
  delete example.rows 7 db = (Some (ErrDeleteNonExistent "Row" 7), db) ∧
  ∃ db1,
    delete example.rows 1 db = (None, db1) ∧
    example.getById 1 (VPtrPtr example.Row (Some (example.row 1 "a"))) db1 =
      (None, VPtrPtr example.Row None, db1).
Proof.
  intros a db.
  assert (Hb : ∃ b, db !! "Row" = Some b ∧ entries b !! idToKey 7 = None ∧
                    is_Some (entries b !! idToKey 1)) by (vm_compute; eauto 10).
  destruct Hb as (b & Hb & Hnone & Hsome).
  pose proof (delete_removes_or_reports_missing sexp.Marshal sexp.Unmarshal example.rows
                example.Row 7 db b eq_refl (ex_intro _ _ eq_refl) Hb) as [H7 _].
  pose proof (delete_removes_or_reports_missing sexp.Marshal sexp.Unmarshal example.rows
                example.Row 1 db b eq_refl (ex_intro _ _ eq_refl) Hb) as [_ H1].
  split; [exact (H7 Hnone)|].
  destruct (H1 Hsome) as (db1 & Hdel & Hget & _).
  exists db1. split; [exact Hdel | apply Hget].
Defined.

(** ** Registration *)

Lemma scanIdField_find (tableName : string) (fields : list StructField) : ∀ n : nat,
  scanIdField tableName fields n =
    match list_find (λ f, fieldTagDb f = "id") fields with
    | None => inr None
    | Some (i, f) =>
        if decide (fieldKind f ≠ Int64) then
          inl (ErrIdFieldNotInt64 tableName (fieldKind f))
        else inr (Some (n + i)%nat)
    end.
Proof.
  induction fields as [|f fields IH]; intros n; [done|].
  cbn [scanIdField list_find].
  destruct (decide (fieldTagDb f = "id")) as [Htag|Htag]; simpl.
  - destruct (decide (fieldKind f ≠ Int64)); [done|]. by rewrite Nat.add_0_r.
  - rewrite IH.
    destruct (list_find _ fields) as [[i g]|]; simpl; [|done].
    destruct (decide (fieldKind g ≠ Int64)); [done|]. do 2 f_equal. lia.
Qed.

(** C8. Registration of a struct type that has no field with the
    identifier designation, or whose designated field is not an [int64],
    fails with the matching error and returns the database as it was: no
    bucket is created. *)
Theorem newTable_rejects_bad_schema (recordType : Value) (st : StructType) (db : DB) :
  TypeOf recordType = TStruct st →
  (designated st = None →
     newTable recordType db = (inl (ErrNoIdField (structName st)), db)) ∧
  (∀ i f, designated st = Some (i, f) → fieldKind f ≠ Int64 →
     newTable recordType db =
       (inl (ErrIdFieldNotInt64 (structName st) (fieldKind f)), db)).
Proof.
  intros Hty. unfold newTable, designated. rewrite Hty. simpl.
  rewrite scanIdField_find. split.
  - by intros ->.
  - intros i f -> Hkind. by rewrite decide_True.
Qed.

Lemma newTable_rejects_bad_schema_witness :
  let noId :=
    {| structName := "NoId";
       structFields := [ {| fieldName := "Name"; fieldPkgPath := ""; fieldTagDb := ""; fieldKind := String |} ] |} in
  let textId :=
    {| structName := "TextId";
       structFields :=
         [ {| fieldName := "Name"; fieldPkgPath := ""; fieldTagDb := ""; fieldKind := String |};
           {| fieldName := "Id"; fieldPkgPath := ""; fieldTagDb := "id"; fieldKind := String |};
           {| fieldName := "Other"; fieldPkgPath := ""; fieldTagDb := "id"; fieldKind := Int64 |} ] |} in
  newTable (VStruct noId (zeroStruct noId)) ∅ = (inl (ErrNoIdField "NoId"), ∅) ∧
  newTable (VStruct textId (zeroStruct textId)) ∅ =
    (inl (ErrIdFieldNotInt64 "TextId" String), ∅).
Proof.
  intros noId textId. split.
  - apply (proj1 (newTable_rejects_bad_schema (VStruct noId (zeroStruct noId)) noId ∅
                    eq_refl)).
    reflexivity.
  - apply (proj2 (newTable_rejects_bad_schema (VStruct textId (zeroStruct textId)) textId ∅
                    eq_refl) 1%nat
             {| fieldName := "Id"; fieldPkgPath := ""; fieldTagDb := "id"; fieldKind := String |}).
    + reflexivity.
    + discriminate.
Defined.

(** C9. After a [truncate] that succeeds, [getAll] returns the empty
    slice, and create of a record whose identifier is 0 succeeds and
    assigns the identifier 1: the new bucket counts from the start. The
    identifier field is assumed to be exported, so that [create] can set
    it, and the codec to accept the record. *)
Theorem truncate_restarts_the_table
    (Marshal : StructType → list FieldVal → option string)
    (Unmarshal : StructType → string → list FieldVal → option (list FieldVal))
    (t : table) (ty : StructType) (i : nat) (db db' : DB)
    (elems : list (list FieldVal)) (value : list FieldVal) (data : string) :
  recordType t = TStruct ty →
  idFieldIndex t = Some i →
  CanSet ty i = true →
  truncate t db = (None, db') →
  FieldInt value i = Some 0 →
  Marshal ty (withId value i 1) = Some data →
  getAll Unmarshal t (VPtrSlice ty elems) db' = (None, VPtrSlice ty [], db') ∧
  ∃ db'',
    create Marshal t (VPtr ty value) db' = (None, VPtr ty (withId value i 1), db'') ∧
    FieldInt (withId value i 1) i = Some 1.
Proof.
  intros Hty Hi Hset Htr Hid Hdata.
  rewrite truncate_eq in Htr.
  destruct (db !! bucketKey t) as [b|]; [|done]. injection Htr as <-.
  split.
  - eapply getAll_eq; [done | rewrite Hi; eauto | apply db_lookup_insert|].
    replace (ordered emptyBucket) with (@nil (string * string)) by done.
    constructor.
  - eexists. split; [|by eapply FieldInt_set].
    rewrite (create_eq Marshal t ty value i _ Hty Hi Hid Hset), db_lookup_insert.
    replace (nextId emptyBucket) with 1 by done. simpl.
    rewrite lookup_empty, Hdata. done.
Qed.

Lemma truncate_restarts_the_table_witness :
  let a := VPtr example.Row (example.row 0 "a") in
  let db := (example.run [OpCreate a; OpCreate a; OpCreate a] example.db0).1 in
  let db' := (truncate example.rows db).2 in
  example.getAll (VPtrSlice example.Row [example.row 9 "z"]) db' =
    (None, VPtrSlice example.Row [], db') ∧
  ∃ db'',
    example.create (VPtr example.Row (example.row 0 "b")) db' =
      (None, VPtr example.Row (withId (example.row 0 "b") 0 1), db'') ∧
    FieldInt (withId (example.row 0 "b") 0 1) 0 = Some 1.
Proof.
  intros a db db'.
  apply (truncate_restarts_the_table sexp.Marshal sexp.Unmarshal example.rows example.Row
           0%nat db db' _ (example.row 0 "b")
           (default "" (sexp.Marshal example.Row (example.row 1 "b"))));
    reflexivity.
Defined.

(** C10. When [create] has passed the checks of shape and of the zero
    identifier and fails inside the transaction after the sequence value is
    obtained, because the key is taken or the codec refuses the record, the
    database is as it was before the call, and the caller's record holds the
    identifier that was generated, which is not zero. The identifier field
    is assumed to be exported: on a field that it cannot set, [create]
    panics before it reaches either failure. *)
Theorem create_failure_keeps_generated_id
    (Marshal : StructType → list FieldVal → option string)
    (t : table) (ty : StructType) (i : nat) (value : list FieldVal)
    (db : DB) (b : Bucket) :
  recordType t = TStruct ty →
  idFieldIndex t = Some i →
  CanSet ty i = true →
  FieldInt value i = Some 0 →
  db !! bucketKey t = Some b →
  0 ≤ sequence b < 2 ^ 64 - 1 →
  is_Some (entries b !! idToKey (nextId b)) ∨
    Marshal ty (withId value i (nextId b)) = None →
  ∃ e,
    create Marshal t (VPtr ty value) db =
      (Some e, VPtr ty (withId value i (nextId b)), db) ∧
    (e = ErrMarshal ∨ ∃ old, e = ErrAlreadyExists (name t) (nextId b) old) ∧
    FieldInt (withId value i (nextId b)) i = Some (nextId b) ∧
    nextId b ≠ 0.
Proof.
  intros Hty Hi Hset Hid Hb Hseq Hfail.
  assert (Hnz : nextId b ≠ 0).
  { unfold nextId, int64_of_uint64. rewrite uint64_succ_small by lia.
    case_decide; lia. }
  rewrite (create_eq Marshal t ty value i db Hty Hi Hid Hset), Hb. simpl.
  destruct (entries b !! idToKey (nextId b)) as [old|] eqn:Hold.
  - eexists. split; [done|]. split; [eauto|]. split; [by eapply FieldInt_set | done].
  - destruct Hfail as [[x Hx]|Hm]; [done|]. rewrite Hm.
    eexists. split; [done|]. split; [eauto|]. split; [by eapply FieldInt_set | done].
Qed.

Lemma create_failure_keeps_generated_id_witness :
  let feed := zeroStruct example.Feed in
  ∃ e,
    create sexp.Marshal example.feeds (VPtr example.Feed feed) example.feedDb =
      (Some e, VPtr example.Feed (withId feed 0 (nextId emptyBucket)), example.feedDb) ∧
    (e = ErrMarshal ∨ ∃ old, e = ErrAlreadyExists "Feed" (nextId emptyBucket) old) ∧
    FieldInt (withId feed 0 (nextId emptyBucket)) 0 = Some (nextId emptyBucket) ∧
    nextId emptyBucket ≠ 0.
Proof.
  intros feed.
  apply (create_failure_keeps_generated_id sexp.Marshal example.feeds example.Feed 0%nat
           feed example.feedDb emptyBucket); try reflexivity.
  - simpl. lia.
  - right. reflexivity.
Defined.

Example feed_registration :
  newTable (VStruct example.Feed (zeroStruct example.Feed)) ∅ =
    (inr example.feeds, example.feedDb).
Proof. vm_compute. reflexivity. Qed.

(** The identifier that a failed [create] left in the caller's record is
    the one that the next successful [create] assigns: the rollback takes
    the counter back. Here the first call runs with a codec that refuses
    every record. *)
Example failed_create_then_create :
  let r1 := create (λ _ _, None) example.rows (VPtr example.Row (example.row 0 "a")) example.db0 in
  let r2 := example.create (VPtr example.Row (example.row 0 "b")) r1.2 in
  r1 = (Some ErrMarshal, VPtr example.Row (example.row 1 "a"), example.db0) ∧
  r2.1 = (None, VPtr example.Row (example.row 1 "b")).
Proof. vm_compute. split; reflexivity. Qed.

(** ** Further properties of the table *)

Section Reachable.

Variable Marshal : StructType → list FieldVal → option string.
Variable Unmarshal : StructType → string → list FieldVal → option (list FieldVal).

(** Any history, truncates included, keeps the bucket in place and
    consistent. *)
Lemma run_consistent t ops : ∀ db b,
  db !! bucketKey t = Some b →
  consistent b →
  sequence b + Z.of_nat (length ops) < 2 ^ 63 →
  ∃ b',
    (run Marshal Unmarshal t ops db).1 !! bucketKey t = Some b' ∧
    consistent b' ∧
    sequence b' ≤ sequence b + Z.of_nat (length ops).
Proof.
  induction ops as [|op ops IH]; intros db b Hb Hc Hlen.
  - exists b. simpl. split; [done|]. split; [done|]. lia.
  - rewrite run_cons. cbn [fst snd]. rewrite length_cons in Hlen.
    assert (Hstep : ∃ b1, (step Marshal Unmarshal t op db).1 !! bucketKey t = Some b1 ∧
                          consistent b1 ∧ sequence b1 ≤ sequence b + 1).
    { destruct (isTruncate op) eqn:Hop.
      - destruct op; try discriminate. simpl. rewrite truncate_eq, Hb. simpl.
        exists emptyBucket. rewrite db_lookup_insert.
        split; [done|]. split; [apply consistent_empty|]. destruct Hc. simpl. lia.
      - destruct (run_without_truncate Marshal Unmarshal t [op] db b Hb (proj1 Hc))
          as (b1 & Hb1 & Hc1 & Hseq1 & _); [simpl; by rewrite Hop | simpl; lia |].
        rewrite run_cons in Hb1. cbn [fst snd run] in Hb1.
        destruct Hseq1 as [_ Hseq1]. cbn [length] in Hseq1.
        exists b1. split; [done|]. split; [by apply Hc1 |]. lia. }
    destruct Hstep as (b1 & Hb1 & Hc1 & Hseq1).
    destruct (IH _ b1 Hb1 Hc1) as (b' & Hb' & Hc' & Hseq'); [lia|].
    exists b'. split; [done|]. split; [done|]. rewrite length_cons. lia.
Qed.

End Reachable.

(** What [newTable] returns for a struct type that has a name and whose
    designated field is an [int64]. *)
Lemma newTable_eq (zero : Value) (st : StructType) (i : nat) (f : StructField) (db : DB) :
  TypeOf zero = TStruct st →
  structName st ≠ "" →
  designated st = Some (i, f) →
  fieldKind f = Int64 →
  newTable zero db =
    (inr {| recordType := TStruct st; name := structName st;
            bucketKey := structName st; idFieldIndex := Some i |},
     match db !! structName st with
     | Some _ => db
     | None => <[structName st := emptyBucket]> db
     end).
Proof.
  intros Hty Hname Hdes Hkind. unfold newTable. rewrite Hty. simpl.
  rewrite scanIdField_find. unfold designated in Hdes. rewrite Hdes.
  rewrite decide_False by (by intros []). simpl.
  unfold Update, CreateBucketIfNotExists.
  rewrite decide_False by done.
  by destruct (db !! structName st).
Qed.

(** Further property (registration). A struct type that has a name and
    whose designated field is an [int64] is registered: the table holds the
    index of that field and is named after the type, its bucket is created
    when it does not exist yet, and registering the type again returns the
    same table and leaves the database as it is. A type without a name is
    left out: Bolt refuses the empty bucket name. *)
Theorem newTable_registers (zero : Value) (st : StructType) (i : nat)
    (f : StructField) (db : DB) :
  TypeOf zero = TStruct st →
  structName st ≠ "" →
  designated st = Some (i, f) →
  fieldKind f = Int64 →
  let t := {| recordType := TStruct st; name := structName st;
              bucketKey := structName st; idFieldIndex := Some i |} in
  let db' := match db !! structName st with
             | Some _ => db
             | None => <[structName st := emptyBucket]> db
             end in
  newTable zero db = (inr t, db') ∧
  is_Some (db' !! bucketKey t) ∧
  newTable zero db' = (inr t, db').
Proof.
  intros Hty Hname Hdes Hkind t db'.
  assert (Hnew : ∀ d, newTable zero d =
            (inr t, match d !! structName st with
                    | Some _ => d
                    | None => <[structName st := emptyBucket]> d
                    end)).
  { intros d. by apply (newTable_eq zero st i f d). }
  assert (Hin : is_Some (db' !! structName st)).
  { subst db'. destruct (db !! structName st) eqn:Hb; [by rewrite Hb|].
    rewrite db_lookup_insert. eauto. }
  split; [apply Hnew|]. split; [done|].
  rewrite Hnew. by destruct Hin as [b ->].
Qed.

Lemma newTable_registers_witness :
  let zero := VStruct example.Row (zeroStruct example.Row) in
  newTable zero ∅ = (inr example.rows, example.db0) ∧
  is_Some (example.db0 !! "Row") ∧
  newTable zero example.db0 = (inr example.rows, example.db0).
Proof.
  intros zero.
  exact (newTable_registers zero example.Row 0%nat
           {| fieldName := "Id"; fieldPkgPath := ""; fieldTagDb := "id"; fieldKind := Int64 |} ∅
           eq_refl ltac:(discriminate) eq_refl eq_refl).
Defined.

(** Further property (create). [create] of a record whose identifier is
    not zero fails with the error for a non-zero ID and leaves the record
    and the database as they were. *)
Theorem create_rejects_nonzero_id
    (Marshal : StructType → list FieldVal → option string)
    (t : table) (ty : StructType) (i : nat) (value : list FieldVal) (id : Z) (db : DB) :
  recordType t = TStruct ty →
  idFieldIndex t = Some i →
  FieldInt value i = Some id →
  id ≠ 0 →
  create Marshal t (VPtr ty value) db =
    (Some (ErrCreateNonZeroId (name t) id), VPtr ty value, db).
Proof.
  intros Hty Hi Hid Hnz. unfold create.
  rewrite (proj2 (validateType_ptr_struct t ty value)) by (rewrite Hi; eauto).
  rewrite Hi, Hid. by rewrite decide_True.
Qed.

Lemma create_rejects_nonzero_id_witness :
  example.create (VPtr example.Row (example.row 4 "d")) example.db0 =
    (Some (ErrCreateNonZeroId "Row" 4), VPtr example.Row (example.row 4 "d"), example.db0).
Proof.
  apply (create_rejects_nonzero_id sexp.Marshal example.rows example.Row 0%nat
           (example.row 4 "d") 4 example.db0); [reflexivity.. | discriminate].
Defined.

(** Further property (update). [update] of a record that has an entry
    overwrites the entry at the record's key and leaves the counter of the
    bucket alone; [getById] then returns the record as it was given. The
    codec is assumed to decode what it encoded for this record. *)
Theorem update_then_getById
    (Marshal : StructType → list FieldVal → option string)
    (Unmarshal : StructType → string → list FieldVal → option (list FieldVal))
    (t : table) (ty : StructType) (i : nat) (value : list FieldVal) (id : Z)
    (db : DB) (b : Bucket) (data : string) (target : option (list FieldVal)) :
  recordType t = TStruct ty →
  idFieldIndex t = Some i →
  FieldInt value i = Some id →
  id ≠ 0 →
  db !! bucketKey t = Some b →
  is_Some (entries b !! idToKey id) →
  Marshal ty value = Some data →
  (∀ into, Unmarshal ty data into = Some value) →
  let db' := <[bucketKey t := updated b id data]> db in
  update Marshal t (VPtr ty value) db = (None, VPtr ty value, db') ∧
  sequence <$> db' !! bucketKey t = Some (sequence b) ∧
  getById Unmarshal t id (VPtrPtr ty target) db' = (None, VPtrPtr ty (Some value), db').
Proof.
  intros Hty Hi Hid Hnz Hb [old Hold] Hdata Hcodec db'.
  split; [|split].
  - by rewrite (update_eq Marshal t ty value i id db Hty Hi Hid Hnz), Hb, Hold, Hdata.
  - subst db'. by rewrite db_lookup_insert.
  - rewrite (getById_eq Unmarshal t ty id target db' Hty) by (rewrite Hi; eauto).
    subst db'. rewrite db_lookup_insert. simpl. rewrite lookup_insert_eq.
    by rewrite Hcodec.
Qed.

Lemma update_then_getById_witness :
  let db := (example.run [OpCreate (VPtr example.Row (example.row 0 "a"))] example.db0).1 in
  ∃ db',
    update sexp.Marshal example.rows (VPtr example.Row (example.row 1 "z")) db =
      (None, VPtr example.Row (example.row 1 "z"), db') ∧
    sequence <$> db' !! "Row" = Some 1 ∧
    example.getById 1 (VPtrPtr example.Row None) db' =
      (None, VPtrPtr example.Row (Some (example.row 1 "z")), db').
Proof.
  intros db.
  assert (Hb : ∃ b, db !! "Row" = Some b ∧ is_Some (entries b !! idToKey 1) ∧ sequence b = 1)
    by (vm_compute; eauto 10).
  destruct Hb as (b & Hb & Hold & Hseq).
  assert (Hcodec : ∀ into,
            sexp.Unmarshal example.Row
              (default "" (sexp.Marshal example.Row (example.row 1 "z"))) into =
            Some (example.row 1 "z"))
    by (intros into; vm_compute; reflexivity).
  destruct (update_then_getById sexp.Marshal sexp.Unmarshal example.rows example.Row 0%nat
              (example.row 1 "z") 1 db b
              (default "" (sexp.Marshal example.Row (example.row 1 "z"))) None
              eq_refl eq_refl eq_refl ltac:(discriminate) Hb Hold eq_refl Hcodec)
    as (Hupdate & Hcounter & Hget).
  rewrite Hseq in Hcounter.
  eexists. split; [exact Hupdate|]. split; [exact Hcounter | exact Hget].
Defined.

(** Further property (invariant). After any history of calls on a table
    with a fresh bucket, truncates included, the bucket is there and is
    consistent: every entry sits at the decimal key of a positive
    identifier that the counter of the bucket has passed. *)
Theorem stored_keys_are_assigned_ids
    (Marshal : StructType → list FieldVal → option string)
    (Unmarshal : StructType → string → list FieldVal → option (list FieldVal))
    (t : table) (ops : list Op) (db0 : DB) :
  db0 !! bucketKey t = Some emptyBucket →
  Z.of_nat (length ops) < 2 ^ 63 →
  ∃ b, (run Marshal Unmarshal t ops db0).1 !! bucketKey t = Some b ∧ consistent b.
Proof.
  intros Hb0 Hlen.
  destruct (run_consistent Marshal Unmarshal t ops db0 emptyBucket Hb0 consistent_empty)
    as (b & Hb & Hc & _); [simpl; lia|].
  by exists b.
Qed.

Lemma stored_keys_are_assigned_ids_witness :
  let a := VPtr example.Row (example.row 0 "a") in
  ∃ b, (example.run [OpCreate a; OpTruncate; OpCreate a; OpCreate a; OpDelete 1] example.db0).1
         !! "Row" = Some b ∧ consistent b.
Proof.
  intros a.
  apply (stored_keys_are_assigned_ids sexp.Marshal sexp.Unmarshal example.rows
           [OpCreate a; OpTruncate; OpCreate a; OpCreate a; OpDelete 1] example.db0);
    reflexivity.
Defined.

(** ** Calls that are turned away *)

(** Further property (unknown table). On a table whose bucket is not in
    the database every operation fails with the error for an unknown table
    and leaves the database and its argument as they were; [create] has not
    generated an identifier at that point. *)
Theorem unknown_table_is_rejected
    (Marshal : StructType → list FieldVal → option string)
    (Unmarshal : StructType → string → list FieldVal → option (list FieldVal))
    (t : table) (ty : StructType) (i : nat) (db : DB) :
  recordType t = TStruct ty →
  idFieldIndex t = Some i →
  db !! bucketKey t = None →
  let e := Some (ErrUnknownTable (name t)) in
  (∀ id target, getById Unmarshal t id (VPtrPtr ty target) db = (e, VPtrPtr ty target, db)) ∧
  (∀ elems, getAll Unmarshal t (VPtrSlice ty elems) db = (e, VPtrSlice ty elems, db)) ∧
  (∀ value, FieldInt value i = Some 0 →
     create Marshal t (VPtr ty value) db = (e, VPtr ty value, db)) ∧
  (∀ value id, FieldInt value i = Some id → id ≠ 0 →
     update Marshal t (VPtr ty value) db = (e, VPtr ty value, db)) ∧
  (∀ id, delete t id db = (e, db)) ∧
  truncate t db = (e, db).
Proof.
  intros Hty Hi Hb e. repeat split.
  - intros id target.
    by rewrite (getById_eq Unmarshal t ty id target db Hty) by (rewrite Hi; eauto); rewrite Hb.
  - intros elems. unfold getAll.
    rewrite (proj2 (validateType_ptr_slice_struct t ty elems)) by (rewrite Hi; eauto).
    unfold ForEach. unfold_tx. by rewrite Hb.
  - intros value Hid. by rewrite (create_unfold Marshal t ty value i db Hty Hi Hid), Hb.
  - intros value id Hid Hnz. by rewrite (update_eq Marshal t ty value i id db Hty Hi Hid Hnz), Hb.
  - intros id. by rewrite delete_eq, Hb.
  - by rewrite truncate_eq, Hb.
Qed.

Lemma unknown_table_is_rejected_witness :
  let e := Some (ErrUnknownTable "Row") in
  (∀ id target,
     example.getById id (VPtrPtr example.Row target) ∅ = (e, VPtrPtr example.Row target, ∅)) ∧
  (∀ elems, example.getAll (VPtrSlice example.Row elems) ∅ = (e, VPtrSlice example.Row elems, ∅)) ∧
  (∀ value, FieldInt value 0 = Some 0 →
     example.create (VPtr example.Row value) ∅ = (e, VPtr example.Row value, ∅)) ∧
  (∀ value id, FieldInt value 0 = Some id → id ≠ 0 →
     update sexp.Marshal example.rows (VPtr example.Row value) ∅ =
       (e, VPtr example.Row value, ∅)) ∧
  (∀ id, delete example.rows id ∅ = (e, ∅)) ∧
  truncate example.rows ∅ = (e, ∅).
Proof.
  exact (unknown_table_is_rejected sexp.Marshal sexp.Unmarshal example.rows example.Row
           0%nat ∅ eq_refl eq_refl eq_refl).
Defined.

(** The loop of [validateType], with the chains it has built so far: when
    it reports a mismatch, the expected chain is the kinds up to the link
    that failed, and the actual chain agrees with it on all links but that
    one. *)
Lemma checkKinds_mismatch (kinds : list Kind) : ∀ ty expected actual e a,
  checkKinds ty kinds expected actual = inl (ErrInputKinds e a) →
  ∃ (n : nat) k k',
    kinds !! n = Some k ∧ k' ≠ k ∧
    e = expected ++ take n kinds ++ [k] ∧
    a = actual ++ take n kinds ++ [k'].
Proof.
  induction kinds as [|kind rest IH]; intros ty expected actual e a Hcheck; [done|].
  cbn [checkKinds] in Hcheck.
  destruct (decide (reflect.kind ty ≠ kind)) as [Hne|Heq].
  - injection Hcheck as <- <-. exists 0%nat, kind, (reflect.kind ty). by repeat split.
  - apply dec_stable in Heq.
    destruct rest as [|kind' rest']; [done|].
    destruct (Elem ty) as [elem|]; [|done].
    apply IH in Hcheck as (n & k & k' & Hn & Hne & -> & ->).
    exists (S n), k, k'. split; [done|]. split; [done|].
    rewrite Heq. simpl. by rewrite <- !app_assoc.
Qed.

(** Further property (shape errors). When the shape check reports a
    mismatch of kinds, the expected chain it names is the chain of kinds
    the operation asked for, cut after the first link that did not match,
    and the actual chain is the same but for that last link. *)
Theorem validateType_reports_first_mismatch
    (t : table) (record : Value) (kinds expected actual : list Kind) :
  validateType t record kinds = Some (ErrInputKinds expected actual) →
  ∃ (n : nat) k k',
    kinds !! n = Some k ∧ k' ≠ k ∧
    expected = take n kinds ++ [k] ∧
    actual = take n kinds ++ [k'].
Proof.
  unfold validateType. intros Hv.
  destruct (ValueType record) as [given|]; [|done].
  destruct (checkKinds given kinds [] []) as [e|base] eqn:Hcheck.
  - injection Hv as ->. by apply checkKinds_mismatch in Hcheck.
  - by repeat case_decide.
Qed.

Lemma validateType_reports_first_mismatch_witness :
  ∃ (n : nat) k k',
    [Ptr; Ptr; Struct] !! n = Some k ∧ k' ≠ k ∧
    [Ptr; Ptr] = take n [Ptr; Ptr; Struct] ++ [k] ∧
    [Ptr; Struct] = take n [Ptr; Ptr; Struct] ++ [k'].
Proof.
  apply (validateType_reports_first_mismatch example.rows
           (VPtr example.Row (example.row 0 "a"))).
  vm_compute. reflexivity.
Defined.

(** Further property (record of another type). An argument of the right
    shape whose struct type is not the one the table was registered for is
    turned away by every operation that takes a record, with the error
    that names the given type; the argument and the database stay as they
    were. *)
Theorem foreign_record_is_rejected
    (Marshal : StructType → list FieldVal → option string)
    (Unmarshal : StructType → string → list FieldVal → option (list FieldVal))
    (t : table) (ty : StructType) (db : DB) :
  recordType t ≠ TStruct ty →
  let e := Some (ErrRecordTypeMismatch (TStruct ty) (name t)) in
  (∀ id target, getById Unmarshal t id (VPtrPtr ty target) db = (e, VPtrPtr ty target, db)) ∧
  (∀ elems, getAll Unmarshal t (VPtrSlice ty elems) db = (e, VPtrSlice ty elems, db)) ∧
  (∀ value, create Marshal t (VPtr ty value) db = (e, VPtr ty value, db)) ∧
  (∀ value, update Marshal t (VPtr ty value) db = (e, VPtr ty value, db)).
Proof.
  intros Hne e.
  assert (Hv : ∀ record kinds,
            ValueType record = Some (TypeOf record) →
            checkKinds (TypeOf record) kinds [] [] = inr (TStruct ty) →
            validateType t record kinds = e).
  { intros record kinds Hgiven Hcheck. unfold validateType. rewrite Hgiven, Hcheck.
    by rewrite decide_True by (by intros E; apply Hne). }
  repeat split.
  - intros id target. unfold getById. by rewrite (Hv (VPtrPtr ty target)).
  - intros elems. unfold getAll. by rewrite (Hv (VPtrSlice ty elems)).
  - intros value. unfold create. by rewrite (Hv (VPtr ty value)).
  - intros value. unfold update. by rewrite (Hv (VPtr ty value)).
Qed.

Lemma foreign_record_is_rejected_witness :
  let e := Some (ErrRecordTypeMismatch (TStruct example.Feed) "Row") in
  (∀ id target,
     example.getById id (VPtrPtr example.Feed target) example.db0 =
       (e, VPtrPtr example.Feed target, example.db0)) ∧
  (∀ elems,
     example.getAll (VPtrSlice example.Feed elems) example.db0 =
       (e, VPtrSlice example.Feed elems, example.db0)) ∧
  (∀ value,
     example.create (VPtr example.Feed value) example.db0 =
       (e, VPtr example.Feed value, example.db0)) ∧
  (∀ value,
     update sexp.Marshal example.rows (VPtr example.Feed value) example.db0 =
       (e, VPtr example.Feed value, example.db0)).
Proof.
  apply (foreign_record_is_rejected sexp.Marshal sexp.Unmarshal example.rows example.Feed
           example.db0).
  discriminate.
Defined.

(** ** What a call leaves alone *)

Section Frames.

Variable Marshal : StructType → list FieldVal → option string.
Variable Unmarshal : StructType → string → list FieldVal → option (list FieldVal).

Lemma transition_other_bucket k op db db' ids k' :
  transition k op db db' ids → k' ≠ k → db' !! k' = db !! k'.
Proof.
  intros Htr Hne. destruct Htr; try done; by rewrite lookup_insert_ne.
Qed.

(** A call other than [truncate] keeps every entry but the one of the
    identifier it writes. *)
Lemma step_other_entries t op db b id' :
  db !! bucketKey t = Some b →
  isTruncate op = false →
  id' ∉ writes t op b →
  ∃ b',
    (step Marshal Unmarshal t op db).1 !! bucketKey t = Some b' ∧
    entries b' !! idToKey id' = entries b !! idToKey id'.
Proof.
  intros Hb Hop Hnot.
  destruct op as [id record | recordSlice | record | record | id |]; simpl; try done.
  - rewrite getById_db. eauto.
  - rewrite getAll_db. eauto.
  - destruct (create_rejected Marshal t record db)
      as [(ty & value & i & -> & Hty & Hi & Hid & Hset) | [e He]].
    + rewrite (create_eq Marshal t ty value i db Hty Hi Hid Hset), Hb. simpl.
      destruct (entries b !! idToKey (nextId b)); simpl; [eauto|].
      destruct (Marshal ty _); simpl; [|eauto].
      rewrite db_lookup_insert. eexists. split; [done|]. simpl.
      apply lookup_insert_ne. intros E. apply idToKey_inj in E.
      apply Hnot. simpl. rewrite E. left.
    + rewrite He. simpl. eauto.
  - destruct (update_rejected Marshal t record db)
      as [(ty & value & i & id & -> & Hty & Hi & Hid & Hnz) | [e He]].
    + rewrite (update_eq Marshal t ty value i id db Hty Hi Hid Hnz), Hb. simpl.
      destruct (entries b !! idToKey id); simpl; [|eauto].
      destruct (Marshal ty value); simpl; [|eauto].
      rewrite db_lookup_insert. eexists. split; [done|]. simpl.
      apply lookup_insert_ne. intros E. apply idToKey_inj in E.
      apply Hnot. simpl. rewrite Hi, Hid, E. left.
    + rewrite He. simpl. eauto.
  - rewrite delete_eq, Hb. simpl.
    destruct (entries b !! idToKey id); simpl; [|eauto].
    rewrite db_lookup_insert. eexists. split; [done|]. simpl.
    apply lookup_delete_ne. intros E. apply idToKey_inj in E.
    apply Hnot. simpl. rewrite E. left.
Qed.

End Frames.

(** Further property (one bucket per table). No history of calls on a
    table, whatever the calls and their arguments, changes a bucket other
    than the table's own. *)
Theorem other_buckets_are_untouched
    (Marshal : StructType → list FieldVal → option string)
    (Unmarshal : StructType → string → list FieldVal → option (list FieldVal))
    (t : table) (ops : list Op) (db : DB) (other : string) :
  other ≠ bucketKey t →
  (run Marshal Unmarshal t ops db).1 !! other = db !! other.
Proof.
  intros Hne. revert db. induction ops as [|op ops IH]; intros db; [done|].
  rewrite run_cons. cbn [fst]. rewrite IH.
  by eapply transition_other_bucket, Hne; apply step_transition.
Qed.

Lemma other_buckets_are_untouched_witness :
  let a := VPtr example.Row (example.row 0 "a") in
  let db := <[ "Feed" := {| entries := {[ "1" := "x" ]}; sequence := 1 |} ]> example.db0 in
  (example.run [OpCreate a; OpCreate a; OpDelete 1; OpTruncate; OpCreate a] db).1 !! "Feed" =
    db !! "Feed".
Proof.
  intros a db.
  apply (other_buckets_are_untouched sexp.Marshal sexp.Unmarshal example.rows).
  discriminate.
Defined.

(** Further property (one record per call). A [create], [update] or
    [delete] leaves the record of every identifier other than the one it
    writes as it was: [getById] for such an identifier returns after the
    call what it returned before it. *)
Theorem other_records_are_untouched
    (Marshal : StructType → list FieldVal → option string)
    (Unmarshal : StructType → string → list FieldVal → option (list FieldVal))
    (t : table) (ty : StructType) (op : Op) (db : DB) (b : Bucket) (id' : Z)
    (target : option (list FieldVal)) :
  recordType t = TStruct ty →
  is_Some (idFieldIndex t) →
  db !! bucketKey t = Some b →
  isTruncate op = false →
  id' ∉ writes t op b →
  let db' := (step Marshal Unmarshal t op db).1 in
  (getById Unmarshal t id' (VPtrPtr ty target) db').1 =
  (getById Unmarshal t id' (VPtrPtr ty target) db).1.
Proof.
  intros Hty Hi Hb Hop Hnot db'.
  destruct (step_other_entries Marshal Unmarshal t op db b id' Hb Hop Hnot)
    as (b' & Hb' & Hsame).
  fold db' in Hb'.
  rewrite !(getById_eq Unmarshal t ty id' target _ Hty Hi), Hb, Hb', Hsame.
  destruct (entries b !! idToKey id') as [data|]; [|done].
  by destruct (Unmarshal ty data _).
Qed.

Lemma other_records_are_untouched_witness :
  let a := VPtr example.Row (example.row 0 "a") in
  let db := (example.run [OpCreate a; OpCreate a] example.db0).1 in
  let db' := (example.run [OpDelete 1] db).1 in
  (example.getById 2 (VPtrPtr example.Row None) db').1 =
  (example.getById 2 (VPtrPtr example.Row None) db).1.
Proof.
  intros a db.
  assert (Hb : ∃ b, db !! "Row" = Some b) by (vm_compute; eauto).
  destruct Hb as [b Hb].
  apply (other_records_are_untouched sexp.Marshal sexp.Unmarshal example.rows example.Row
           (OpDelete 1) db b 2 None eq_refl (ex_intro _ _ eq_refl) Hb eq_refl).
  simpl. intros Hin. apply list_elem_of_singleton in Hin. discriminate.
Defined.

(** ** Reading a table that holds an entry the codec cannot decode *)

Section GetAllFailure.

Variable Unmarshal : StructType → string → list FieldVal → option (list FieldVal).

Lemma forEach_decode_until ty kvs1 : ∀ kv kvs2 rs acc (db : DB),
  Forall2 (decodesTo Unmarshal ty) kvs1 rs →
  Unmarshal ty kv.2 (zeroStruct ty) = None →
  forEach (appendDecoded Unmarshal ty) (kvs1 ++ kv :: kvs2) db acc =
    (inl ErrUnmarshal, db, acc ++ rs).
Proof.
  induction kvs1 as [|[key value] kvs1 IH]; intros kv kvs2 rs acc db Hdec Hbad.
  - apply Forall2_nil_inv_l in Hdec as ->. destruct kv as [key value]. simpl in *.
    unfold bind at 1. unfold appendDecoded at 1. rewrite Hbad.
    unfold fail. by rewrite app_nil_r.
  - apply Forall2_cons_inv_l in Hdec as (r & rs' & Hr & Hrs & ->).
    unfold decodesTo in Hr. simpl in Hr.
    simpl. unfold bind at 1. unfold appendDecoded at 1. rewrite Hr.
    unfold_tx. rewrite (IH kv kvs2 rs' (acc ++ [r]) db Hrs Hbad).
    by rewrite <- app_assoc.
Qed.

End GetAllFailure.

(** Further property (undecodable entry). When the codec fails on an
    entry, [getAll] stops there and returns the codec's error; the slice
    then holds the records of the entries before it in key order, not what
    it held before the call, and the entries after it are not read. *)
Theorem getAll_stops_at_undecodable_entry
    (Unmarshal : StructType → string → list FieldVal → option (list FieldVal))
    (t : table) (ty : StructType) (elems : list (list FieldVal)) (db : DB) (b : Bucket)
    (before after : list (string * string)) (bad : string * string)
    (rs : list (list FieldVal)) :
  recordType t = TStruct ty →
  is_Some (idFieldIndex t) →
  db !! bucketKey t = Some b →
  ordered b = before ++ bad :: after →
  Forall2 (decodesTo Unmarshal ty) before rs →
  Unmarshal ty bad.2 (zeroStruct ty) = None →
  getAll Unmarshal t (VPtrSlice ty elems) db = (Some ErrUnmarshal, VPtrSlice ty rs, db).
Proof.
  intros Hty Hi Hb Hord Hdec Hbad. unfold getAll.
  rewrite (proj2 (validateType_ptr_slice_struct t ty elems)) by done.
  unfold ForEach. unfold_tx. tx_simpl.
  by rewrite Hord, (forEach_decode_until Unmarshal ty before bad after rs [] db Hdec Hbad).
Qed.

Lemma getAll_stops_at_undecodable_entry_witness :
  let a := VPtr example.Row (example.row 0 "a") in
  let db1 := (example.run [OpCreate a] example.db0).1 in
  let db := (create (λ _ _, Some "?") example.rows a db1).2 in
  example.getAll (VPtrSlice example.Row [example.row 9 "z"]) db =
    (Some ErrUnmarshal, VPtrSlice example.Row [example.row 1 "a"], db).
Proof.
  intros a db1 db.
  assert (Hb : ∃ b, db !! "Row" = Some b ∧
                    ordered b = [("1", default "" (sexp.Marshal example.Row (example.row 1 "a")))]
                                ++ ("2", "?") :: [])
    by (vm_compute; eauto).
  destruct Hb as (b & Hb & Hord).
  apply (getAll_stops_at_undecodable_entry sexp.Unmarshal example.rows example.Row _ db b
           _ [] ("2", "?") _ eq_refl (ex_intro _ _ eq_refl) Hb Hord).
  - repeat constructor.
  - vm_compute. reflexivity.
Defined.

(** ** How the writes compose *)

(** Further property (update keeps the keys). Whatever record it is
    given, and whether it succeeds or fails, [update] returns the record as
    it was given and leaves the set of keys and the counter of the bucket as
    they were: it neither adds nor removes an entry. *)
Theorem update_keeps_keys_and_counter
    (Marshal : StructType → list FieldVal → option string)
    (t : table) (record : Value) (db : DB) (b : Bucket) :
  db !! bucketKey t = Some b →
  (update Marshal t record db).1.2 = record ∧
  ∃ b',
    (update Marshal t record db).2 !! bucketKey t = Some b' ∧
    dom (entries b') = dom (entries b) ∧
    sequence b' = sequence b.
Proof.
  intros Hb.
  destruct (update_rejected Marshal t record db)
    as [(ty & value & i & id & -> & Hty & Hi & Hid & Hnz) | [e He]].
  - rewrite (update_eq Marshal t ty value i id db Hty Hi Hid Hnz), Hb.
    destruct (entries b !! idToKey id) as [old|] eqn:Hold; simpl; [|eauto].
    destruct (Marshal ty value); simpl; [|eauto].
    split; [done|]. rewrite db_lookup_insert. eexists. split; [done|]. simpl.
    split; [|done]. apply dom_insert_lookup_L. by rewrite Hold.
  - rewrite He. simpl. eauto.
Qed.

Lemma update_keeps_keys_and_counter_witness :
  let a := VPtr example.Row (example.row 0 "a") in
  let db := (example.run [OpCreate a; OpCreate a] example.db0).1 in
  let result := update sexp.Marshal example.rows (VPtr example.Row (example.row 2 "z")) db in
  result.1.2 = VPtr example.Row (example.row 2 "z") ∧
  ∃ b', result.2 !! "Row" = Some b' ∧
        dom (entries b') = dom ({[ "1" := "a"; "2" := "b" ]} : gmap string string) ∧
        sequence b' = 2.
Proof.
  intros a db result.
  assert (Hb : ∃ b, db !! "Row" = Some b ∧
                    dom (entries b) = dom ({[ "1" := "a"; "2" := "b" ]} : gmap string string) ∧
                    sequence b = 2).
  { eexists. split; [vm_compute; reflexivity|]. split; vm_compute; reflexivity. }
  destruct Hb as (b & Hb & Hdom & Hseq).
  pose proof (update_keeps_keys_and_counter sexp.Marshal example.rows
                (VPtr example.Row (example.row 2 "z")) db b Hb) as Hupdate.
  rewrite Hdom, Hseq in Hupdate. exact Hupdate.
Defined.

(** Further property (delete twice). A [delete] that succeeds takes
    exactly one entry out of the bucket and leaves the counter alone; a
    second [delete] of the same identifier fails with the error for a
    non-existent record and changes nothing. *)
Theorem delete_twice_fails (t : table) (id : Z) (db db1 : DB) :
  delete t id db = (None, db1) →
  (∃ b b1,
     db !! bucketKey t = Some b ∧ db1 !! bucketKey t = Some b1 ∧
     size (entries b) = S (size (entries b1)) ∧
     sequence b1 = sequence b) ∧
  delete t id db1 = (Some (ErrDeleteNonExistent (name t) id), db1).
Proof.
  rewrite delete_eq. intros Hdel.
  destruct (db !! bucketKey t) as [b|] eqn:Hb; [|done].
  destruct (entries b !! idToKey id) as [old|] eqn:Hold; [|done].
  injection Hdel as <-. split.
  - exists b, (deleted b id). rewrite db_lookup_insert. repeat split. simpl.
    rewrite map_size_delete, Hold.
    assert (size (entries b) ≠ 0%nat); [|lia].
    intros Hz. apply map_size_empty_inv in Hz. by rewrite Hz, lookup_empty in Hold.
  - rewrite delete_eq, db_lookup_insert. simpl. by rewrite lookup_delete_eq.
Qed.

Lemma delete_twice_fails_witness :
  let a := VPtr example.Row (example.row 0 "a") in
  let db := (example.run [OpCreate a; OpCreate a] example.db0).1 in
  let db1 := (delete example.rows 2 db).2 in
  (∃ b b1,
     db !! "Row" = Some b ∧ db1 !! "Row" = Some b1 ∧
     size (entries b) = S (size (entries b1)) ∧
     sequence b1 = sequence b) ∧
  delete example.rows 2 db1 = (Some (ErrDeleteNonExistent "Row" 2), db1).
Proof.
  intros a db db1.
  apply (delete_twice_fails example.rows 2 db db1). vm_compute. reflexivity.
Defined.

(** Further property (create, then delete). Deleting the record that a
    [create] has just stored gives back the entries the bucket had before
    the [create]; the counter stays advanced, so the identifier is spent. *)
Theorem create_then_delete
    (Marshal : StructType → list FieldVal → option string)
    (t : table) (ty : StructType) (i : nat) (record : Value) (value' : list FieldVal)
    (id : Z) (db db1 : DB) (b : Bucket) :
  db !! bucketKey t = Some b →
  idFieldIndex t = Some i →
  create Marshal t record db = (None, VPtr ty value', db1) →
  FieldInt value' i = Some id →
  ∃ db2 b2,
    delete t id db1 = (None, db2) ∧
    db2 !! bucketKey t = Some b2 ∧
    entries b2 = entries b ∧
    sequence b2 = uint64_succ (sequence b).
Proof.
  intros Hb Hi Hcreate Hid'.
  destruct (create_rejected Marshal t record db)
    as [(ty0 & value & i0 & -> & Hty & Hi0 & Hid & Hset) | [e He]]; [|congruence].
  assert (i0 = i) as -> by congruence.
  rewrite (create_eq Marshal t ty0 value i db Hty Hi Hid Hset), Hb in Hcreate. simpl in Hcreate.
  destruct (entries b !! idToKey (nextId b)) as [old|] eqn:Hfree; [done|].
  destruct (Marshal ty0 _) as [data|]; [|done].
  injection Hcreate as <- <- <-.
  rewrite (FieldInt_set _ _ _ _ Hid) in Hid'. injection Hid' as <-.
  eexists _, _. rewrite delete_eq, db_lookup_insert. simpl.
  rewrite lookup_insert_eq. split; [done|].
  rewrite db_insert_insert, db_lookup_insert. split; [done|]. simpl.
  split; [by apply delete_insert_id | done].
Qed.

Lemma create_then_delete_witness :
  let a := VPtr example.Row (example.row 0 "a") in
  let db := (example.run [OpCreate a] example.db0).1 in
  let db1 := (example.create a db).2 in
  ∃ db2 b2,
    delete example.rows 2 db1 = (None, db2) ∧
    db2 !! "Row" = Some b2 ∧
    entries b2 = {[ "1" := default "" (sexp.Marshal example.Row (example.row 1 "a")) ]} ∧
    sequence b2 = 2.
Proof.
  intros a db db1.
  assert (Hb : ∃ b, db !! "Row" = Some b ∧
                    entries b = {[ "1" := default "" (sexp.Marshal example.Row (example.row 1 "a")) ]} ∧
                    uint64_succ (sequence b) = 2).
  { eexists. split; [vm_compute; reflexivity|]. split; vm_compute; reflexivity. }
  destruct Hb as (b & Hb & Hentries & Hseq).
  assert (Hcreate : example.create a db = (None, VPtr example.Row (example.row 2 "a"), db1))
    by (vm_compute; reflexivity).
  pose proof (create_then_delete sexp.Marshal example.rows example.Row 0%nat a
                (example.row 2 "a") 2 db db1 b Hb eq_refl Hcreate eq_refl) as Hdelete.
  rewrite Hentries, Hseq in Hdelete. exact Hdelete.
Defined.

(** Further property (truncate). On a table whose bucket exists,
    [truncate] succeeds and leaves a new, empty bucket; a second
    [truncate] succeeds as well and changes nothing more. *)
Theorem truncate_twice (t : table) (db : DB) :
  is_Some (db !! bucketKey t) →
  ∃ db1,
    truncate t db = (None, db1) ∧
    db1 !! bucketKey t = Some emptyBucket ∧
    truncate t db1 = (None, db1).
Proof.
  intros [b Hb]. exists (<[bucketKey t := emptyBucket]> db).
  rewrite !truncate_eq, Hb, db_lookup_insert. by rewrite db_insert_insert.
Qed.

Lemma truncate_twice_witness :
  let a := VPtr example.Row (example.row 0 "a") in
  let db := (example.run [OpCreate a; OpCreate a] example.db0).1 in
  ∃ db1,
    truncate example.rows db = (None, db1) ∧
    db1 !! "Row" = Some emptyBucket ∧
    truncate example.rows db1 = (None, db1).
Proof.
  intros a db.
  apply (truncate_twice example.rows db). vm_compute. eauto.
Defined.

(** ** Keys *)

(** Further property (keys). The key of an identifier is never empty, and
    reading it as a decimal number gives the identifier back: two
    identifiers never share a key. *)
Theorem idToKey_reads_back (id : Z) :
  idToKey id ≠ "" ∧
  Z.of_int <$> NilZero.int_of_string (idToKey id) = Some id.
Proof.
  assert (Hread : Z.of_int <$> NilZero.int_of_string (idToKey id) = Some id).
  { unfold idToKey. destruct (to_int_not_nil id) as [H1 H2].
    rewrite (NilZero.isi _ H1 H2). simpl. by rewrite DecimalZ.of_to. }
  split; [|done]. intros E. by rewrite E in Hread.
Qed.

(** ** An identifier field that is not exported *)

(** Further property (unexported identifier field). [newTable] registers
    a struct type whose designated field is not exported: it looks at the
    tag and at the kind of the field only. On the table it returns,
    [create] of a record whose identifier is zero panics when it sets the
    generated identifier; the transaction is rolled back, so that the
    record and the database, the counter of the bucket included, are as
    they were. *)
Theorem create_panics_on_unexported_id
    (Marshal : StructType → list FieldVal → option string)
    (zero : Value) (st : StructType) (i : nat) (f : StructField) (db : DB)
    (value : list FieldVal) :
  TypeOf zero = TStruct st →
  structName st ≠ "" →
  designated st = Some (i, f) →
  fieldKind f = Int64 →
  IsExported f = false →
  FieldInt value i = Some 0 →
  ∃ t db',
    newTable zero db = (inr t, db') ∧
    is_Some (db' !! bucketKey t) ∧
    create Marshal t (VPtr st value) db' = (Some Panic, VPtr st value, db').
Proof.
  intros Hty Hname Hdes Hkind Hexp Hid.
  set (t := {| recordType := TStruct st; name := structName st;
               bucketKey := structName st; idFieldIndex := Some i |}).
  set (db' := match db !! structName st with
              | Some _ => db
              | None => <[structName st := emptyBucket]> db
              end).
  exists t, db'.
  split; [by apply (newTable_eq zero st i f db)|].
  assert (Hin : is_Some (db' !! bucketKey t)).
  { subst db'. simpl. destruct (db !! structName st) eqn:Hb; [by rewrite Hb|].
    rewrite db_lookup_insert. eauto. }
  split; [done|].
  assert (Hset : CanSet st i = false).
  { unfold CanSet. unfold designated in Hdes.
    apply list_find_Some in Hdes as (Hf & _). by rewrite Hf. }
  rewrite (create_unfold Marshal t st value i db' eq_refl eq_refl Hid).
  destruct Hin as [b ->]. by rewrite Hset.
Qed.

Lemma create_panics_on_unexported_id_witness :
  let draft := [VInt64 0; VString "a"] in
  newTable (VStruct example.Draft (zeroStruct example.Draft)) ∅ =
    (inr example.drafts, example.draftDb) ∧
  create sexp.Marshal example.drafts (VPtr example.Draft draft) example.draftDb =
    (Some Panic, VPtr example.Draft draft, example.draftDb).
Proof.
  intros draft.
  destruct (create_panics_on_unexported_id sexp.Marshal
              (VStruct example.Draft (zeroStruct example.Draft)) example.Draft 0%nat
              {| fieldName := "id"; fieldPkgPath := "model"; fieldTagDb := "id";
                 fieldKind := Int64 |} ∅ draft)
    as (t & db' & Hnew & _ & Hcreate); try (reflexivity || discriminate).
  assert (Hrun : newTable (VStruct example.Draft (zeroStruct example.Draft)) ∅ =
                   (inr example.drafts, example.draftDb)) by (vm_compute; reflexivity).
  rewrite Hrun in Hnew. injection Hnew as <- <-. by split.
Defined.

(** * Properties of the arena's messages *)

(** ** The rules that were violated *)

Section Rules.
Context `{field.Env}.

Lemma rules_foldl_lookup (fouls : list game.Foul) (rules : gmap Z (option field.Rule)) (id : Z) :
  foldl (λ rules foul, <[game.RuleId foul := field.GetRuleById (game.RuleId foul)]> rules)
    rules fouls !! id
  = if decide (id ∈ game.RuleId <$> fouls) then Some (field.GetRuleById id) else rules !! id.
Proof.
  revert rules. induction fouls as [|foul fouls IH]; intros rules.
  - rewrite decide_False; [done | set_solver].
  - rewrite fmap_cons. change (foldl ?f rules (foul :: fouls)) with (foldl f (f rules foul) fouls).
    rewrite IH. destruct (decide (id ∈ game.RuleId <$> fouls)) as [Hin|Hin].
    + rewrite decide_True; [done | set_solver].
    + destruct (decide (id = game.RuleId foul)) as [->|Hne].
      * rewrite decide_True by set_solver. by rewrite lookup_insert_eq.
      * rewrite decide_False by set_solver. by rewrite lookup_insert_ne.
Qed.

End Rules.

(** Further property (getRulesViolated). The map of violated rules has
    exactly the rule IDs of the fouls of both alliances as keys, each one
    with what [GetRuleById] returns for it, which is nil for an ID that
    has no rule: such an ID is a key all the same. The map does not depend
    on which alliance committed which foul. *)
Theorem getRulesViolated_lookup `{field.Env} (redFouls blueFouls : list game.Foul) :
  (∀ id : Z,
     field.getRulesViolated redFouls blueFouls !! id
     = if decide (id ∈ game.RuleId <$> (redFouls ++ blueFouls))
       then Some (field.GetRuleById id) else None) ∧
  field.getRulesViolated redFouls blueFouls = field.getRulesViolated blueFouls redFouls.
Proof.
  assert (Hlookup : ∀ red blue id,
     field.getRulesViolated red blue !! id
     = if decide (id ∈ game.RuleId <$> (red ++ blue))
       then Some (field.GetRuleById id) else None).
  { intros red blue id. unfold field.getRulesViolated. rewrite !rules_foldl_lookup.
    rewrite lookup_empty, fmap_app.
    destruct (decide (id ∈ game.RuleId <$> blue)), (decide (id ∈ game.RuleId <$> red));
      (rewrite decide_True by set_solver) || (rewrite decide_False by set_solver); done. }
  split; [apply Hlookup|].
  apply map_eq. intros id. rewrite !Hlookup, !fmap_app.
  destruct (decide (id ∈ (game.RuleId <$> redFouls) ++ (game.RuleId <$> blueFouls)));
    (rewrite decide_True by set_solver) || (rewrite decide_False by set_solver); done.
Qed.

(** ** The posted score *)

Section Rankings.
Context `{field.Env}.

Lemma savedRankingsFrom_split (savedRankings : list field.Ranking) (index : nat)
    (redRankings blueRankings : gmap Z (option nat)) :
  field.savedRankingsFrom index savedRankings redRankings blueRankings
  = (rankingsFrom index savedRankings redRankings,
     rankingsFrom index savedRankings blueRankings).
Proof.
  revert index redRankings blueRankings.
  induction savedRankings as [|ranking rest IH]; intros; simpl; [done | apply IH].
Qed.

Lemma setRanking_dom (rankings : gmap Z (option nat)) (index : nat) (ranking : field.Ranking) :
  dom (field.setRanking rankings index ranking) = dom rankings.
Proof.
  unfold field.setRanking. destruct (rankings !! field.TeamId ranking) eqn:E; [|done].
  rewrite dom_insert_L. apply elem_of_dom_2 in E. set_solver.
Qed.

Lemma rankingsFrom_dom (savedRankings : list field.Ranking) (index : nat)
    (rankings : gmap Z (option nat)) :
  dom (rankingsFrom index savedRankings rankings) = dom rankings.
Proof.
  revert index rankings. induction savedRankings as [|ranking rest IH]; intros; simpl; [done|].
  by rewrite IH, setRanking_dom.
Qed.

Lemma rankingsFrom_unranked (team : Z) (savedRankings : list field.Ranking) (index : nat)
    (rankings : gmap Z (option nat)) :
  unranked team savedRankings →
  rankingsFrom index savedRankings rankings !! team = rankings !! team.
Proof.
  revert index rankings. induction savedRankings as [|ranking rest IH]; intros index rankings Hun;
    simpl; [done|].
  apply Forall_cons in Hun as [Hne Hun]. rewrite IH by done.
  unfold field.setRanking. destruct (rankings !! field.TeamId ranking); [|done].
  by rewrite lookup_insert_ne.
Qed.

Lemma rankingsFrom_last (team : Z) (before after : list field.Ranking) (ranking : field.Ranking)
    (index : nat) (rankings : gmap Z (option nat)) :
  is_Some (rankings !! team) →
  field.TeamId ranking = team →
  unranked team after →
  rankingsFrom index (before ++ ranking :: after) rankings !! team
  = Some (Some (index + length before)%nat).
Proof.
  intros Hkey Hteam Hafter. revert index rankings Hkey.
  induction before as [|other before IH]; intros index rankings Hkey; simpl.
  - rewrite rankingsFrom_unranked by done. unfold field.setRanking.
    rewrite Hteam. destruct Hkey as [x ->]. rewrite lookup_insert_eq.
    by rewrite Nat.add_0_r.
  - rewrite IH; [do 2 f_equal; lia|].
    unfold field.setRanking. destruct (rankings !! field.TeamId other) eqn:E; [|done].
    destruct (decide (field.TeamId other = team)) as [->|Hne].
    + rewrite lookup_insert_eq. eauto.
    + by rewrite lookup_insert_ne.
Qed.

(** The ranking of a team among the saved ones: the index of the last one
    that carries its number. *)
Lemma unranked_or_last (team : Z) (savedRankings : list field.Ranking) :
  unranked team savedRankings ∨
  ∃ before ranking after,
    savedRankings = before ++ ranking :: after ∧ field.TeamId ranking = team ∧
    unranked team after.
Proof.
  induction savedRankings as [|ranking rest [IH | (before & r & after & -> & Hr & Hafter)]].
  - left. constructor.
  - destruct (decide (field.TeamId ranking = team)) as [Heq|Hne].
    + right. exists [], ranking, rest. done.
    + left. by constructor.
  - right. exists (ranking :: before), r, after. done.
Qed.

End Rankings.

(** Further property (GenerateScorePostedMessage, ranking points). When the
    bonus ranking points of both alliances leave room for two more in an
    [int], the posted ranking points are never below the bonus points, and
    both alliances together get two points more than their bonus points
    when the saved match was won or tied, and none otherwise. *)
Theorem posted_ranking_points `{field.Env} (arena : field.Arena) (msg : field.ScorePosted.Message) :
  field.GenerateScorePostedMessage arena = Some msg →
  let redBonus := field.BonusRankingPoints (field.SavedRedScoreSummary arena) in
  let blueBonus := field.BonusRankingPoints (field.SavedBlueScoreSummary arena) in
  - 2 ^ 63 ≤ redBonus < 2 ^ 63 - 2 →
  - 2 ^ 63 ≤ blueBonus < 2 ^ 63 - 2 →
  redBonus ≤ field.ScorePosted.RedRankingPoints msg ∧
  blueBonus ≤ field.ScorePosted.BlueRankingPoints msg ∧
  field.ScorePosted.RedRankingPoints msg + field.ScorePosted.BlueRankingPoints msg
  = redBonus + blueBonus + pointsForResult (model.Status (field.SavedMatch arena)).
Proof.
  intros Hmsg redBonus blueBonus Hred Hblue.
  unfold field.GenerateScorePostedMessage in Hmsg.
  assert (Hadd : ∀ a b, - 2 ^ 63 ≤ a < 2 ^ 63 - 2 → 0 ≤ b ≤ 2 → int_add a b = a + b).
  { intros a b Ha Hb. unfold int_add, int_wrap.
    rewrite Z.mod_small by lia. lia. }
  fold redBonus blueBonus in Hmsg.
  repeat case_match; simplify_eq; cbn;
    rewrite ?Hadd by (done || lia); unfold pointsForResult;
    repeat case_match; simplify_eq; lia.
Qed.

Lemma posted_ranking_points_witness :
  let arena := exampleArena.arena model.Playoff game.TieMatch in
  ∃ msg,
    @field.GenerateScorePostedMessage exampleArena.env arena = Some msg ∧
    1 ≤ field.ScorePosted.RedRankingPoints msg ∧
    0 ≤ field.ScorePosted.BlueRankingPoints msg ∧
    field.ScorePosted.RedRankingPoints msg + field.ScorePosted.BlueRankingPoints msg = 3.
Proof.
  intros arena.
  destruct (@field.GenerateScorePostedMessage exampleArena.env arena) as [msg|] eqn:Hmsg;
    [|by vm_compute in Hmsg].
  exists msg. split; [done|].
  apply (@posted_ranking_points exampleArena.env arena msg Hmsg); vm_compute; split; congruence.
Defined.

(** Further property (GenerateScorePostedMessage, rankings). The keys of
    the rankings of an alliance in the posted score are exactly the three
    teams of the alliance in the saved match. The value for a team is nil
    when no saved ranking carries its number, and is otherwise the pointer
    to the last saved ranking that carries it. *)
Theorem posted_rankings `{field.Env} (arena : field.Arena) (msg : field.ScorePosted.Message) :
  field.GenerateScorePostedMessage arena = Some msg →
  let m := field.SavedMatch arena in
  let ranked (rankings : gmap Z (option nat)) (teams : list Z) :=
    dom rankings = list_to_set teams ∧
    ∀ team, team ∈ teams →
      (unranked team (field.SavedRankings arena) → rankings !! team = Some None) ∧
      (∀ before ranking after,
         field.SavedRankings arena = before ++ ranking :: after →
         field.TeamId ranking = team →
         unranked team after →
         rankings !! team = Some (Some (length before))) in
  ranked (field.ScorePosted.RedRankings msg) [model.Red1 m; model.Red2 m; model.Red3 m] ∧
  ranked (field.ScorePosted.BlueRankings msg) [model.Blue1 m; model.Blue2 m; model.Blue3 m].
Proof.
  intros Hmsg m ranked.
  assert (Hloop : ∀ a b c : Z,
    ranked (rankingsFrom 0 (field.SavedRankings arena)
              (<[c := None]> (<[b := None]> (<[a := None]> ∅)))) [a; b; c]).
  { intros a b c. split.
    - rewrite rankingsFrom_dom, !dom_insert_L. set_solver.
    - intros team Hteam.
      assert (Hkey : (<[c := None]> (<[b := None]> (<[a := None]> (∅ : gmap Z (option nat)))))
                       !! team = Some None).
      { destruct (decide (team = c)) as [->|Hc]; [by rewrite lookup_insert_eq|].
        rewrite lookup_insert_ne by done.
        destruct (decide (team = b)) as [->|Hb]; [by rewrite lookup_insert_eq|].
        rewrite lookup_insert_ne by done.
        destruct (decide (team = a)) as [->|Ha]; [by rewrite lookup_insert_eq|].
        set_solver. }
      split.
      + intros Hun. by rewrite rankingsFrom_unranked.
      + intros before ranking after -> Hr Hafter.
        by rewrite (rankingsFrom_last team before after ranking 0) by eauto. }
  unfold field.GenerateScorePostedMessage in Hmsg.
  rewrite savedRankingsFrom_split in Hmsg.
  repeat case_match; simplify_eq; cbn; split; apply Hloop.
Qed.

Lemma posted_rankings_witness :
  let arena := exampleArena.arena model.OtherMatchType game.RedWonMatch in
  ∃ msg,
    @field.GenerateScorePostedMessage exampleArena.env arena = Some msg ∧
    field.ScorePosted.RedRankings msg = {[ 254 := Some 3%nat; 1678 := None; 971 := None ]} ∧
    field.ScorePosted.BlueRankings msg = {[ 118 := Some 0%nat; 148 := None; 254 := Some 3%nat ]}.
Proof.
  intros arena.
  destruct (@field.GenerateScorePostedMessage exampleArena.env arena) as [msg|] eqn:Hmsg;
    [|by vm_compute in Hmsg].
  exists msg. split; [done|].
  destruct (@posted_rankings exampleArena.env arena msg Hmsg) as [[Hrdom Hred] [Hbdom Hblue]].
  assert (Hun : ∀ team, team ≠ 118 → team ≠ 254 → team ≠ 33 →
                  @unranked exampleArena.env team (exampleArena.rankings arena)).
  { intros team H1 H2 H3. repeat constructor; done. }
  split; apply map_eq; intros team.
  - destruct (decide (team = 254)) as [->|H254].
    { destruct (Hred 254) as [_ Hlast]; [set_solver|].
      rewrite (Hlast [118; 254; 33] 254 []); [done..|constructor]. }
    destruct (decide (team = 1678)) as [->|H1678].
    { destruct (Hred 1678) as [Hnil _]; [set_solver|].
      rewrite Hnil; [done | by apply Hun]. }
    destruct (decide (team = 971)) as [->|H971].
    { destruct (Hred 971) as [Hnil _]; [set_solver|].
      rewrite Hnil; [done | by apply Hun]. }
    rewrite (proj1 (not_elem_of_dom _ team)) by (rewrite Hrdom; set_solver).
    symmetry. apply not_elem_of_dom. set_solver.
  - destruct (decide (team = 254)) as [->|H254].
    { destruct (Hblue 254) as [_ Hlast]; [set_solver|].
      rewrite (Hlast [118; 254; 33] 254 []); [done..|constructor]. }
    destruct (decide (team = 118)) as [->|H118].
    { destruct (Hblue 118) as [_ Hlast]; [set_solver|].
      rewrite (Hlast [] 118 [254; 33; 254]); [done..|repeat constructor; done]. }
    destruct (decide (team = 148)) as [->|H148].
    { destruct (Hblue 148) as [Hnil _]; [set_solver|].
      rewrite Hnil; [done | by apply Hun]. }
    rewrite (proj1 (not_elem_of_dom _ team)) by (rewrite Hbdom; set_solver).
    symmetry. apply not_elem_of_dom. set_solver.
Defined.

(** ** The loaded match *)

Section OffField.
Context `{field.Env}.

Lemma offFieldTeams_from (arena : field.Arena) (teamIds : list Z) (teams : list (option field.Team)) :
  foldl (λ teams teamId, teams ++ [field.GetTeamById arena teamId]) teams teamIds
  = teams ++ (field.GetTeamById arena <$> teamIds).
Proof.
  revert teams. induction teamIds as [|teamId teamIds IH]; intros teams; simpl.
  - by rewrite app_nil_r.
  - by rewrite IH, <- app_assoc.
Qed.

Lemma offFieldTeams_eq (arena : field.Arena) (teamIds : list Z) :
  field.offFieldTeams arena teamIds = field.GetTeamById arena <$> teamIds.
Proof. unfold field.offFieldTeams. by rewrite offFieldTeams_from. Qed.

End OffField.

(** Further property (GenerateMatchLoadMessage, teams and rankings). The
    message gives every alliance station its team, nil included. Its
    rankings have one key for each team that stands at a station, the
    decimal team number, with what the database returns as the ranking of
    that team; a station without a team adds no key. The order in which the
    stations are visited makes no difference. *)
Theorem match_load_teams_and_rankings `{field.Env} (arena : field.Arena) :
  let msg := field.GenerateMatchLoadMessage arena in
  field.MatchLoad.Match msg = field.CurrentMatch arena ∧
  field.MatchLoad.Teams msg = field.StationTeam <$> field.AllianceStations arena ∧
  (∀ station allianceStation team,
     field.AllianceStations arena !! station = Some allianceStation →
     field.StationTeam allianceStation = Some team →
     field.MatchLoad.Rankings msg !! idToKey (field.TeamNumber team)
     = Some (field.GetRankingForTeam arena (field.TeamNumber team))) ∧
  (∀ key ranking,
     field.MatchLoad.Rankings msg !! key = Some ranking →
     ∃ station allianceStation team,
       field.AllianceStations arena !! station = Some allianceStation ∧
       field.StationTeam allianceStation = Some team ∧
       key = idToKey (field.TeamNumber team) ∧
       ranking = field.GetRankingForTeam arena (field.TeamNumber team)).
Proof.
  intros msg.
  assert (Hmsg : ∃ matchup red blue, msg =
    {| field.MatchLoad.Match := field.CurrentMatch arena;
       field.MatchLoad.Teams :=
         map_fold (λ station allianceStation teams,
                     <[station := field.StationTeam allianceStation]> teams)
           ∅ (field.AllianceStations arena);
       field.MatchLoad.Rankings :=
         map_fold (λ _ allianceStation rankings,
                     match field.StationTeam allianceStation with
                     | Some team =>
                         <[idToKey (field.TeamNumber team) :=
                             field.GetRankingForTeam arena (field.TeamNumber team)]> rankings
                     | None => rankings
                     end)
           ∅ (field.AllianceStations arena);
       field.MatchLoad.Matchup := matchup;
       field.MatchLoad.RedOffFieldTeams := red;
       field.MatchLoad.BlueOffFieldTeams := blue |}).
  { subst msg. unfold field.GenerateMatchLoadMessage.
    destruct (model.Type' (field.CurrentMatch arena)); [|by eauto].
    destruct (field.GetOffFieldTeamIds arena (field.CurrentMatch arena)). by eauto. }
  destruct Hmsg as (matchup & red & blue & ->). cbn.
  split; [done|]. split.
  - apply (map_fold_weak_ind (λ teams stations, teams = field.StationTeam <$> stations)).
    + by rewrite fmap_empty.
    + intros station allianceStation stations teams _ ->. by rewrite fmap_insert.
  - apply (map_fold_weak_ind (λ rankings stations,
      (∀ station allianceStation team,
         stations !! station = Some allianceStation →
         field.StationTeam allianceStation = Some team →
         rankings !! idToKey (field.TeamNumber team)
         = Some (field.GetRankingForTeam arena (field.TeamNumber team))) ∧
      (∀ key ranking,
         rankings !! key = Some ranking →
         ∃ station allianceStation team,
           stations !! station = Some allianceStation ∧
           field.StationTeam allianceStation = Some team ∧
           key = idToKey (field.TeamNumber team) ∧
           ranking = field.GetRankingForTeam arena (field.TeamNumber team)))).
    + split; [intros ??? E; by rewrite lookup_empty in E|].
      intros ?? E. by rewrite lookup_empty in E.
    + intros station allianceStation stations rankings Hfresh [Hin Hout]. split.
      * intros station' allianceStation' team Hst Hteam.
        destruct (decide (station' = station)) as [->|Hne].
        { rewrite lookup_insert_eq in Hst. simplify_eq. rewrite Hteam.
          by rewrite lookup_insert_eq. }
        rewrite lookup_insert_ne in Hst by done.
        pose proof (Hin _ _ _ Hst Hteam) as Hold.
        destruct (field.StationTeam allianceStation) as [team'|]; [|done].
        destruct (decide (idToKey (field.TeamNumber team') = idToKey (field.TeamNumber team)))
          as [Hkey|Hkey].
        { rewrite Hkey, lookup_insert_eq. apply idToKey_inj in Hkey. by rewrite Hkey. }
        by rewrite lookup_insert_ne.
      * intros key ranking Hkey.
        assert (Hold : rankings !! key = Some ranking →
                  ∃ station' allianceStation' team,
                    <[station := allianceStation]> stations !! station' = Some allianceStation' ∧
                    field.StationTeam allianceStation' = Some team ∧
                    key = idToKey (field.TeamNumber team) ∧
                    ranking = field.GetRankingForTeam arena (field.TeamNumber team)).
        { intros E. destruct (Hout _ _ E) as (station' & allianceStation' & team & Hst & Hrest).
          exists station', allianceStation', team. split; [|done].
          rewrite lookup_insert_ne; [done|]. intros <-. by rewrite Hfresh in Hst. }
        destruct (field.StationTeam allianceStation) as [team'|] eqn:Hteam'; [|by apply Hold].
        destruct (decide (key = idToKey (field.TeamNumber team'))) as [->|Hne].
        { rewrite lookup_insert_eq in Hkey. simplify_eq.
          exists station, allianceStation, team'. by rewrite lookup_insert_eq. }
        rewrite lookup_insert_ne in Hkey by done. by apply Hold.
Qed.

(** Further property (GenerateMatchLoadMessage, playoff). For a match that
    is not a playoff match the message has no matchup and no off-field
    teams. For a playoff match it has the matchup of the round and group
    of the match, and for each alliance one entry per off-field team ID, in
    the order of the IDs, which is nil for an ID that the database does not
    know. *)
Theorem match_load_off_field_teams `{field.Env} (arena : field.Arena) :
  let msg := field.GenerateMatchLoadMessage arena in
  let m := field.CurrentMatch arena in
  match model.Type' m with
  | model.Playoff =>
      field.MatchLoad.Matchup msg
      = field.GetMatchup arena (model.PlayoffRound m) (model.PlayoffGroup m) ∧
      field.MatchLoad.RedOffFieldTeams msg
      = field.GetTeamById arena <$> (field.GetOffFieldTeamIds arena m).1 ∧
      field.MatchLoad.BlueOffFieldTeams msg
      = field.GetTeamById arena <$> (field.GetOffFieldTeamIds arena m).2
  | model.OtherMatchType =>
      field.MatchLoad.Matchup msg = None ∧
      field.MatchLoad.RedOffFieldTeams msg = [] ∧
      field.MatchLoad.BlueOffFieldTeams msg = []
  end.
Proof.
  intros msg m. subst msg m. unfold field.GenerateMatchLoadMessage.
  destruct (model.Type' (field.CurrentMatch arena)); [|done].
  destruct (field.GetOffFieldTeamIds arena (field.CurrentMatch arena)) as [red blue]. cbn.
  by rewrite !offFieldTeams_eq.
Qed.

(** ** The status of the arena *)

(** Further property (generateArenaStatusMessage). When both access points
    report six team wifi statuses, the message is produced and gives each
    of the six stations a status: the red stations, and every station when
    no channel is set for the second access point, that of the first
    access point at the position of the station; the blue stations
    otherwise that of the second access point. *)
Theorem arena_status_wifi `{field.Env} (arena : field.Arena) :
  length (field.accessPointStatuses arena) = 6%nat →
  length (field.accessPoint2Statuses arena) = 6%nat →
  ∃ msg,
    field.generateArenaStatusMessage arena = Some msg ∧
    dom (field.ArenaStatus.TeamWifiStatuses msg)
    = list_to_set ["R1"; "R2"; "R3"; "B1"; "B2"; "B3"] ∧
    (∀ (i : nat) station,
       ["R1"; "R2"; "R3"] !! i = Some station →
       field.ArenaStatus.TeamWifiStatuses msg !! station
       = field.accessPointStatuses arena !! i) ∧
    (∀ (i : nat) station,
       ["B1"; "B2"; "B3"] !! i = Some station →
       field.ArenaStatus.TeamWifiStatuses msg !! station
       = (if decide (field.Ap2TeamChannel arena = 0) then field.accessPointStatuses arena
          else field.accessPoint2Statuses arena) !! (3 + i)%nat).
Proof.
  intros Hlen Hlen2. unfold field.generateArenaStatusMessage.
  destruct (field.accessPointStatuses arena)
    as [|a0 [|a1 [|a2 [|a3 [|a4 [|a5 [|]]]]]]] eqn:Ha; try done.
  destruct (field.accessPoint2Statuses arena)
    as [|b0 [|b1 [|b2 [|b3 [|b4 [|b5 [|]]]]]]] eqn:Hb; try done.
  clear Hlen Hlen2.
  destruct (decide (field.Ap2TeamChannel arena = 0)) as [Hch|Hch];
    cbn [field.teamWifiStatusesFrom];
    repeat (rewrite (decide_True (P := _ ∨ _)) by ((by left) || (right; lia)));
    repeat (rewrite (decide_False (P := _ ∨ _)) by (intros [?|?]; [done | lia]));
    rewrite ?Ha, ?Hb; cbn [lookup list_lookup];
    (eexists; split; [reflexivity|]); cbn [field.ArenaStatus.TeamWifiStatuses];
    (split; [by rewrite !dom_insert_L, dom_empty_L|]);
    split; intros [|[|[|i]]] station E; simplify_eq/=; done.
Qed.

Lemma arena_status_wifi_witness :
  let arena := exampleArena.arena model.OtherMatchType game.TieMatch in
  ∃ msg,
    @field.generateArenaStatusMessage exampleArena.env arena = Some msg ∧
    field.ArenaStatus.TeamWifiStatuses msg
    = {[ "R1" := "r1"; "R2" := "r2"; "R3" := "r3"; "B1" := "b1"; "B2" := "b2"; "B3" := "b3" ]}.
Proof.
  intros arena.
  destruct (@arena_status_wifi exampleArena.env arena eq_refl eq_refl)
    as (msg & Hmsg & Hdom & Hred & Hblue).
  exists msg. split; [done|].
  apply map_eq. intros station.
  destruct (decide (station ∈ ["R1"; "R2"; "R3"; "B1"; "B2"; "B3"])) as [Hin|Hout].
  - repeat (apply elem_of_cons in Hin as [->|Hin]); [..|by apply elem_of_nil in Hin].
    + by rewrite (Hred 0%nat "R1").
    + by rewrite (Hred 1%nat "R2").
    + by rewrite (Hred 2%nat "R3").
    + by rewrite (Hblue 0%nat "B1").
    + by rewrite (Hblue 1%nat "B2").
    + by rewrite (Hblue 2%nat "B3").
  - rewrite (proj1 (not_elem_of_dom _ station)) by (rewrite Hdom; set_solver).
    symmetry. apply not_elem_of_dom. set_solver.
Defined.
